(** * autopxd: the declarator resolver of [autopxd/__init__.py]

    A shallow embedding of the [AutoPxd] visitor, of the [PxdNode] classes it
    builds and of the text they render, followed by the properties of the
    resolver that the specification states.

    Python values are embedded as follows.  A [str] is a [string]; a list is a
    [list] whose last element is the Python index [-1]; the dictionary
    [constants] is a [gmap string Z]; an exception is the [Raise] result of the
    state-and-error monad [M], in which every method of [AutoPxd] lives. *)

From stdpp Require Import base strings list gmap pretty.

Local Open Scope string_scope.
Local Open Scope list_scope.

(** ** The input tree

    The classes of [pycparser.c_ast] that a declaration tree is made of, with
    the fields the visitor reads.  The order of the fields of a constructor is
    not the order of the children: [children] below gives that order, the one
    [NodeVisitor.generic_visit] follows.  [Expr] stands for the expression
    classes without a [name] or [value] attribute (unary and binary
    operators, casts, initialiser lists, ...). *)
Module c_ast.

Scheme All for list.
Scheme All for option.
Scheme All for prod.

Inductive node : Type :=
| FileAST (ext : list node)
| Decl (name : option string) (type : node) (init bitsize : option node)
| Typedef (name : option string) (type : node)
| Typename (name : option string) (type : node)
| TypeDecl (declname : option string) (type : node)
| PtrDecl (type : node)
| ArrayDecl (type : node) (dim : option node)
| FuncDecl (args : option node) (type : node)
| ParamList (params : list node)
| EllipsisParam
| Struct (name : option string) (decls : option (list node))
| Union (name : option string) (decls : option (list node))
| Enum (name : option string) (values : option (list (string * option node)))
| IdentifierType (names : list string)
| Constant (type value : string)
| ID (name : string)
| Expr (op : string) (operands : list node).

(** [isinstance(node, c_ast.X)] for the four classes [child_of] is asked
    about. *)
Definition is_TypeDecl (n : node) : bool :=
  match n with TypeDecl _ _ => true | _ => false end.
Definition is_Typedef (n : node) : bool :=
  match n with Typedef _ _ => true | _ => false end.
Definition is_PtrDecl (n : node) : bool :=
  match n with PtrDecl _ => true | _ => false end.
Definition is_ArrayDecl (n : node) : bool :=
  match n with ArrayDecl _ _ => true | _ => false end.

(** [hasattr(node, 'declname')] and the attribute: only [TypeDecl] has it. *)
Definition declname_attr (n : node) : option (option string) :=
  match n with TypeDecl d _ => Some d | _ => None end.

(** [hasattr(node, 'name')] and the attribute. *)
Definition name_attr (n : node) : option (option string) :=
  match n with
  | Decl x _ _ _ | Typedef x _ | Typename x _
  | Struct x _ | Union x _ | Enum x _ => Some x
  | ID x => Some (Some x)
  | _ => None
  end.

(** [hasattr(node, 'value')] and the attribute: only [Constant] has it. *)
Definition value_attr (n : node) : option string :=
  match n with Constant _ v => Some v | _ => None end.

Definition opt_list {A} (o : option A) : list A :=
  match o with Some a => [a] | None => [] end.

(** The children [generic_visit] iterates over, in its order.  An [Enum]
    has its enumerator list as only child; [visit_Enum] never descends, so
    the enumerators are kept as plain data. *)
Definition children (n : node) : list node :=
  match n with
  | FileAST ext => ext
  | Decl _ ty init bitsize => ty :: opt_list init ++ opt_list bitsize
  | Typedef _ ty | Typename _ ty | TypeDecl _ ty | PtrDecl ty => [ty]
  | ArrayDecl ty dim => ty :: opt_list dim
  | FuncDecl args ty => opt_list args ++ [ty]
  | ParamList params => params
  | Struct _ decls | Union _ decls => default [] decls
  | Expr _ operands => operands
  | EllipsisParam | Enum _ _ | IdentifierType _ | Constant _ _ | ID _ => []
  end.

Definition option_eqb {A} (eqb : A → A → bool) (x y : option A) : bool :=
  match x, y with
  | Some a, Some b => eqb a b
  | None, None => true
  | _, _ => false
  end.

Definition list_eqb {A} (eqb : A → A → bool) : list A → list A → bool :=
  fix go l1 l2 :=
    match l1, l2 with
    | [], [] => true
    | a :: l1', b :: l2' => eqb a b && go l1' l2'
    | _, _ => false
    end.

Definition enumerator_eqb (eqb : node → node → bool)
    (x y : string * option node) : bool :=
  String.eqb x.1 y.1 && option_eqb eqb x.2 y.2.

(** [n == node] on two nodes: the classes define no [__eq__], so Python
    compares identities; the same object is in particular the same tree. *)
Fixpoint node_eqb (a b : node) {struct a} : bool :=
  match a, b with
  | FileAST x, FileAST y => list_eqb node_eqb x y
  | Decl n1 t1 i1 b1, Decl n2 t2 i2 b2 =>
      option_eqb String.eqb n1 n2 && node_eqb t1 t2
      && option_eqb node_eqb i1 i2 && option_eqb node_eqb b1 b2
  | Typedef n1 t1, Typedef n2 t2 | Typename n1 t1, Typename n2 t2
  | TypeDecl n1 t1, TypeDecl n2 t2 =>
      option_eqb String.eqb n1 n2 && node_eqb t1 t2
  | PtrDecl t1, PtrDecl t2 => node_eqb t1 t2
  | ArrayDecl t1 d1, ArrayDecl t2 d2 =>
      node_eqb t1 t2 && option_eqb node_eqb d1 d2
  | FuncDecl a1 t1, FuncDecl a2 t2 =>
      option_eqb node_eqb a1 a2 && node_eqb t1 t2
  | ParamList x, ParamList y => list_eqb node_eqb x y
  | EllipsisParam, EllipsisParam => true
  | Struct n1 d1, Struct n2 d2 | Union n1 d1, Union n2 d2 =>
      option_eqb String.eqb n1 n2 && option_eqb (list_eqb node_eqb) d1 d2
  | Enum n1 v1, Enum n2 v2 =>
      option_eqb String.eqb n1 n2
      && option_eqb (list_eqb (enumerator_eqb node_eqb)) v1 v2
  | IdentifierType x, IdentifierType y => list_eqb String.eqb x y
  | Constant t1 v1, Constant t2 v2 => String.eqb t1 t2 && String.eqb v1 v2
  | ID x, ID y => String.eqb x y
  | Expr o1 x, Expr o2 y => String.eqb o1 o2 && list_eqb node_eqb x y
  | _, _ => false
  end.

End c_ast.

(** ** Python helpers *)

Inductive exn : Type :=
| AssertionError | IndexError | AttributeError | TypeError | ValueError.

Inductive result (A : Type) : Type :=
| Ok (a : A)
| Raise (e : exn).
Arguments Ok {A} a.
Arguments Raise {A} e.

(** [sep.join(l)] *)
Definition join (sep : string) (l : list string) : string := String.concat sep l.

(** [bool(x)] for a value that is [None] or a [str]. *)
Definition truthy (x : option string) : bool :=
  match x with
  | Some s => negb (String.eqb s "")
  | None => false
  end.

(** [str(x)] for a value that is [None] or a [str]. *)
Definition str_opt (x : option string) : string := default "None" x.

Definition is_space (c : Ascii.ascii) : bool :=
  let n := Ascii.nat_of_ascii c in
  (Nat.leb 9 n && Nat.leb n 13) || (Nat.leb 28 n && Nat.leb n 32).

(** [s.split()]: the maximal runs of characters that are not white space. *)
Fixpoint split_go (s : string) (cur : string) : list string :=
  match s with
  | EmptyString => if String.eqb cur "" then [] else [cur]
  | String c s' =>
      if is_space c
      then (if String.eqb cur "" then [] else [cur]) ++ split_go s' ""
      else split_go s' (cur +:+ String c "")
  end.
Definition split (s : string) : list string := split_go s "".

Definition digit_of (c : Ascii.ascii) : option Z :=
  let n := Ascii.nat_of_ascii c in
  if Nat.leb 48 n && Nat.leb n 57 then Some (Z.of_nat (n - 48)) else None.

Fixpoint int_go (s : string) (acc : Z) : option Z :=
  match s with
  | EmptyString => Some acc
  | String c s' =>
      match digit_of c with
      | Some d => int_go s' (10 * acc + d)%Z
      | None => None
      end
  end.

(** [int(s)] on the text of a C integer constant: the value of a string of
    decimal digits, [ValueError] on anything else (a suffix, a hexadecimal
    or a character constant). *)
Definition int (s : string) : result Z :=
  match s with
  | EmptyString => Raise ValueError
  | _ => match int_go s 0 with Some z => Ok z | None => Raise ValueError end
  end.

(** [str(z)] on an [int]. *)
Definition str_int (z : Z) : string := pretty z.

(** [l[-k]] for [k >= 1]: [IndexError] when the list is shorter. *)
Definition index_back {A} (l : list A) (k : nat) : result A :=
  match rev l !! (k - 1) with
  | Some a => Ok a
  | None => Raise IndexError
  end.

(** [l[:-2]] *)
Definition drop_last2 {A} (l : list A) : list A :=
  take (length l - 2) l.

(** ** The output nodes

    The values that travel through [decl_stack]: [None], a [str], or an
    instance of one of the [PxdNode] classes.  [Ptr] and [Array] are
    subclasses of [IdentifierType] in the source, which [isinstance] sees
    ([is_IdentifierType]). *)
Inductive pyobj : Type :=
| None_
| Str (s : string)
| IdentifierType (name : string) (type_name : string)
| Function (return_type : string) (name : option string) (args : list pyobj)
| Ptr (node : pyobj)
| Array (node : pyobj) (dimensions : list string)
| Type_ (node : pyobj)
| Block (name : string) (fields : list pyobj) (kind statement : string)
| Enum (name : option string) (items : list string) (statement : string).

Definition is_str (x : pyobj) : bool :=
  match x with Str _ => true | _ => false end.

Definition is_IdentifierType (x : pyobj) : bool :=
  match x with IdentifierType _ _ | Ptr _ | Array _ _ => true | _ => false end.

Definition indent : string := "    ".

(** The newline character. *)
Definition nl : string := String (Ascii.ascii_of_nat 10) "".

(** [x.type_name]: an attribute of [IdentifierType], a property of [Ptr] and
    [Array], absent elsewhere. *)
Fixpoint get_type_name (x : pyobj) : result string :=
  match x with
  | IdentifierType _ t => Ok t
  | Ptr n => match get_type_name n with
             | Ok t => Ok (t +:+ "*")
             | Raise e => Raise e
             end
  | Array n _ => get_type_name n
  | _ => Raise AttributeError
  end.

(** [x.name]: [None] or a [str] when the attribute exists. *)
Fixpoint get_name (x : pyobj) : result (option string) :=
  match x with
  | IdentifierType n _ => Ok (Some n)
  | Function _ n _ => Ok n
  | Ptr n => get_name n
  | Array n dims =>
      match dims with
      | [] => get_name n
      | _ => match get_name n with
             | Ok (Some s) => Ok (Some (s +:+ "[" +:+ join "][" dims +:+ "]"))
             | Ok None => Raise TypeError
             | Raise e => Raise e
             end
      end
  | Block n _ _ _ => Ok (Some n)
  | Enum n _ _ => Ok n
  | None_ | Str _ | Type_ _ => Raise AttributeError
  end.

(** [IdentifierType.lines], which [Ptr] and [Array] inherit, over the
    [name] and [type_name] of the receiver. *)
Definition IdentifierType_lines (x : pyobj) : result (list string) :=
  match get_name x with
  | Raise e => Raise e
  | Ok n =>
      match get_type_name x with
      | Raise e => Raise e
      | Ok t => if truthy n then Ok [t +:+ " " +:+ str_opt n] else Ok [t]
      end
  end.

(** [Function.argstr] over a function that renders one argument. *)
Definition argstr_with (lines : pyobj → result (list string))
    : list pyobj → result (list string) :=
  fix go args :=
    match args with
    | [] => Ok []
    | a :: args' =>
        match lines a with
        | Raise e => Raise e
        | Ok [l] => match go args' with
                    | Ok ls => Ok (l :: ls)
                    | Raise e => Raise e
                    end
        | Ok _ => Raise AssertionError
        end
    end.

(** The loop of [Block.lines] over a function that renders one field. *)
Definition field_lines_with (lines : pyobj → result (list string))
    : list pyobj → result (list string) :=
  fix go fields :=
    match fields with
    | [] => Ok []
    | f :: fields' =>
        match lines f with
        | Raise e => Raise e
        | Ok ls => match go fields' with
                   | Ok rest => Ok (((String.append indent) <$> ls) ++ rest)
                   | Raise e => Raise e
                   end
        end
    end.

Definition Function_line (fmt_name : string → string) (return_type : string)
    (name : option string) (args : list string) : string :=
  return_type +:+ " " +:+ fmt_name (str_opt name)
    +:+ "(" +:+ join ", " args +:+ ")".

(** [x.lines()] *)
Fixpoint lines (x : pyobj) : result (list string) :=
  match x with
  | None_ | Str _ => Raise AttributeError
  | IdentifierType _ _ => IdentifierType_lines x
  | Function rt n args =>
      match argstr_with lines args with
      | Ok a => Ok [Function_line id rt n a]
      | Raise e => Raise e
      end
  | Ptr (Function rt n args) =>
      match argstr_with lines args with
      | Ok a => Ok [Function_line (λ f, "(*" +:+ f +:+ ")") rt n a]
      | Raise e => Raise e
      end
  | Ptr _ | Array _ _ => IdentifierType_lines x
  | Type_ n =>
      match lines n with
      | Ok (l :: ls) => Ok (("ctypedef " +:+ l) :: ls)
      | Ok [] => Raise IndexError
      | Raise e => Raise e
      end
  | Block n fields kind statement =>
      match field_lines_with lines fields with
      | Ok ls => Ok ((statement +:+ " " +:+ kind +:+ " " +:+ n +:+ ":") :: ls)
      | Raise e => Raise e
      end
  | Enum n items statement =>
      Ok ((if truthy n then statement +:+ " enum " +:+ str_opt n +:+ ":"
           else "cdef enum:") :: ((String.append indent) <$> items))
  end.

(** [str(x)]: [PxdNode.__str__] on a node, the text itself on a [str]. *)
Definition str (x : pyobj) : result string :=
  match x with
  | None_ => Ok "None"
  | Str s => Ok s
  | _ => match lines x with
         | Ok ls => Ok (join nl ls)
         | Raise e => Raise e
         end
  end.

(** The set [STDINT_DECLARATIONS]. *)
Definition STDINT_DECLARATIONS : gset string :=
  list_to_set
  [ "int8_t"; "uint8_t"; "int16_t"; "uint16_t";
    "int32_t"; "uint32_t"; "int64_t"; "uint64_t"; "int_least8_t";
    "uint_least8_t"; "int_least16_t"; "uint_least16_t"; "int_least32_t";
    "uint_least32_t"; "int_least64_t"; "uint_least64_t"; "int_fast8_t";
    "uint_fast8_t"; "int_fast16_t"; "uint_fast16_t"; "int_fast32_t";
    "uint_fast32_t"; "int_fast64_t"; "uint_fast64_t"; "intptr_t"; "uintptr_t";
    "intmax_t"; "uintmax_t" ].

(** [name in l] on a list of strings. *)
Definition mem (name : string) (l : list string) : bool :=
  existsb (String.eqb name) l.

(** ** The visitor state and its monad *)

(** The attributes [AutoPxd.__init__] creates.  [decl_stack] is a list of
    lists: [decl_stack[0]] is the top-level accumulator, [decl_stack[-1]]
    the list [append] writes to (they are the same list when only one is
    left). *)
Record AutoPxd : Type := mkAutoPxd {
  hdrname : string;
  decl_stack : list (list pyobj);
  visit_stack : list c_ast.node;
  stdint_declarations : list string;
  dimension_stack : list string;
  constants : gmap string Z
}.

Definition AutoPxd_init (hdrname : string) : AutoPxd :=
  mkAutoPxd hdrname [[]] [] [] [] ∅.

Definition set_decl_stack (v : list (list pyobj)) (s : AutoPxd) : AutoPxd :=
  mkAutoPxd (hdrname s) v (visit_stack s) (stdint_declarations s)
    (dimension_stack s) (constants s).
Definition set_visit_stack (v : list c_ast.node) (s : AutoPxd) : AutoPxd :=
  mkAutoPxd (hdrname s) (decl_stack s) v (stdint_declarations s)
    (dimension_stack s) (constants s).
Definition set_stdint_declarations (v : list string) (s : AutoPxd) : AutoPxd :=
  mkAutoPxd (hdrname s) (decl_stack s) (visit_stack s) v
    (dimension_stack s) (constants s).
Definition set_dimension_stack (v : list string) (s : AutoPxd) : AutoPxd :=
  mkAutoPxd (hdrname s) (decl_stack s) (visit_stack s) (stdint_declarations s)
    v (constants s).
Definition set_constants (v : gmap string Z) (s : AutoPxd) : AutoPxd :=
  mkAutoPxd (hdrname s) (decl_stack s) (visit_stack s) (stdint_declarations s)
    (dimension_stack s) v.

(** A method of [AutoPxd]: it reads and updates the object and returns a
    value or raises. *)
Definition M (A : Type) : Type := AutoPxd → result (A * AutoPxd).

Definition ret {A} (a : A) : M A := λ s, Ok (a, s).
Definition bind {A B} (m : M A) (k : A → M B) : M B :=
  λ s, match m s with
       | Ok (a, s') => k a s'
       | Raise e => Raise e
       end.
Definition raise {A} (e : exn) : M A := λ _, Raise e.
Definition lift {A} (r : result A) : M A :=
  λ s, match r with Ok a => Ok (a, s) | Raise e => Raise e end.
Definition get {A} (f : AutoPxd → A) : M A := λ s, Ok (f s, s).
Definition modify (f : AutoPxd → AutoPxd) : M unit := λ s, Ok (tt, f s).
Definition assert (b : bool) : M unit :=
  if b then ret tt else raise AssertionError.

Notation "x <- m ;; k" := (bind m (λ x, k))
  (at level 100, m at next level, right associativity).
Notation "m ;; k" := (bind m (λ _, k))
  (at level 100, right associativity).

(** [l[-1].append(x)] and [l[0].append(x)] on a list of lists. *)
Definition append_last {A} (x : A) (ll : list (list A)) : option (list (list A)) :=
  match rev ll with
  | [] => None
  | f :: r => Some (rev r ++ [f ++ [x]])
  end.
Definition append_first {A} (x : A) (ll : list (list A)) : option (list (list A)) :=
  match ll with
  | [] => None
  | f :: r => Some ((f ++ [x]) :: r)
  end.

(** [l.pop()] *)
Definition pop_last {A} (l : list A) : option (A * list A) :=
  match rev l with
  | [] => None
  | x :: r => Some (x, rev r)
  end.

(** ** The methods of [AutoPxd] *)

(** [self.append(node)] *)
Definition append (x : pyobj) : M unit :=
  λ s, match append_last x (decl_stack s) with
       | Some ds => Ok (tt, set_decl_stack ds s)
       | None => Raise IndexError
       end.

(** [self.decl_stack[0].append(node)] *)
Definition append_top (x : pyobj) : M unit :=
  λ s, match append_first x (decl_stack s) with
       | Some ds => Ok (tt, set_decl_stack ds s)
       | None => Raise IndexError
       end.

(** [self.child_of(type, -k)]; the form without index is never called. *)
Definition child_of (is_type : c_ast.node → bool) (k : nat) : M bool :=
  n <- (λ s, lift (index_back (visit_stack s) k) s) ;; ret (is_type n).

(** [x and self.child_of(type, -k)]: the call is made only when [x] holds. *)
Definition and_child_of (x : bool) (is_type : c_ast.node → bool) (k : nat)
    : M bool :=
  if x then child_of is_type k else ret false.

Definition attr_truthy (a : option (option string)) : option string :=
  match a with
  | Some (Some s) => if String.eqb s "" then None else Some s
  | _ => None
  end.

(** What one ancestor contributes to [names] in [path_name]. *)
Definition path_component (n : c_ast.node) : option string :=
  match attr_truthy (c_ast.declname_attr n) with
  | Some s => Some s
  | None => attr_truthy (c_ast.name_attr n)
  end.

Definition path_names (s : AutoPxd) : list string :=
  omap path_component (drop_last2 (visit_stack s)).

Definition path_name_of (names : list string) (tag : option string) : string :=
  match tag with
  | None => join "_" names
  | Some t => "_" +:+ join "_" names +:+ "_" +:+ t
  end.

Definition path_name (tag : option string) : M string :=
  get (λ s, path_name_of (path_names s) tag).

(** [collect(node)], over the [generic_visit] of the node.  The list that
    [pop] returns is the one pushed: every method leaves the depth of
    [decl_stack] as it found it ([visit_decl_stack_length]), so the
    assertion of the source cannot fail. *)
Definition collect (generic_visit : M unit) : M (list pyobj) :=
  modify (λ s, set_decl_stack (decl_stack s ++ [[]]) s) ;;
  generic_visit ;;
  λ s, match pop_last (decl_stack s) with
       | Some (decls, ds) => Ok (decls, set_decl_stack ds s)
       | None => Raise IndexError
       end.

(** The loop of [visit_IdentifierType] over [stdint_declarations]. *)
Definition note_stdint (seen : list string) (name : string) : list string :=
  if bool_decide (name ∈ STDINT_DECLARATIONS) && negb (mem name seen)
  then seen ++ [name] else seen.

Definition visit_IdentifierType (names : list string) : M unit :=
  modify (λ s, set_stdint_declarations
                 (fold_left note_stdint names (stdint_declarations s)) s) ;;
  append (Str (join " " names)).

Definition of_name (x : option string) : pyobj :=
  match x with Some s => Str s | None => None_ end.

Definition is_None {A} (x : option A) : bool :=
  match x with None => true | Some _ => false end.

(** [not node.decls]: no list, or an empty one. *)
Definition no_decls {A} (x : option (list A)) : bool :=
  match x with None | Some [] => true | Some _ => false end.

Definition visit_Block (name : option string) (decls : option (list c_ast.node))
    (kind : string) (generic_visit : M unit) : M unit :=
  type_decl <- child_of c_ast.is_TypeDecl 2 ;;
  type_def <- and_child_of type_decl c_ast.is_Typedef 3 ;;
  name' <- (if truthy name then ret (str_opt name)
            else if type_def then path_name None
            else path_name (Some (String.substring 0 1 kind))) ;;
  if no_decls decls then
    ref <- child_of c_ast.is_TypeDecl 2 ;;
    if ref then append (Str name') else ret tt
  else
    fields <- collect generic_visit ;;
    if type_def && is_None name then
      append_top (Block name' fields kind "ctypedef")
    else
      append_top (Block name' fields kind "cdef") ;;
      if type_decl then append (Str name') else ret tt.

(** The loop of [visit_Enum] over the enumerators, from the running
    [value]. *)
Fixpoint Enum_values (enumerators : list (string * option c_ast.node))
    (value : Z) : M unit :=
  match enumerators with
  | [] => ret tt
  | (name, v) :: rest =>
      value' <- lift (match v ≫= c_ast.value_attr with
                      | Some text => int text
                      | None => Ok (value + 1)%Z
                      end) ;;
      modify (λ s, set_constants (<[name := value']> (constants s)) s) ;;
      Enum_values rest value'
  end.

Definition visit_Enum (name : option string)
    (values : option (list (string * option c_ast.node))) : M unit :=
  let items := match values with Some es => es.*1 | None => [] end in
  match values with Some es => Enum_values es 0 | None => ret tt end ;;
  type_decl <- child_of c_ast.is_TypeDecl 2 ;;
  type_def <- and_child_of type_decl c_ast.is_Typedef 3 ;;
  name' <- (if truthy name then ret name
            else if type_def then
              n <- path_name None ;; ret (Some n)
            else if type_def then
              n <- path_name (Some "e") ;; ret (Some n)
            else ret name) ;;
  if is_None name && type_def && negb (Nat.eqb (length items) 0) then
    append_top (Enum name' items "ctypedef")
  else
    (if negb (Nat.eqb (length items) 0)
     then append_top (Enum name' items "cdef") else ret tt) ;;
    if type_decl then append (of_name name') else ret tt.

(** [name or ''] *)
Definition declname_or_empty (name : option string) : string :=
  if truthy name then str_opt name else "".

(** The common body of [visit_TypeDecl] and [visit_Decl]; [name] is
    [node.declname] for the first and [node.name] for the second. *)
Definition visit_named (name : option string) (generic_visit : M unit) : M unit :=
  decls <- collect generic_visit ;;
  match decls with
  | [] => ret tt
  | [Str t] => append (IdentifierType (declname_or_empty name) t)
  | [d] => append d
  | _ => raise AssertionError
  end.

Definition visit_TypeDecl := visit_named.
Definition visit_Decl := visit_named.

(** [args = []] when the only argument is an [IdentifierType] of type
    [void]. *)
Definition elide_void (args : list pyobj) : result (list pyobj) :=
  match args with
  | [a] =>
      if is_IdentifierType a then
        match get_type_name a with
        | Ok t => Ok (if String.eqb t "void" then [] else args)
        | Raise e => Raise e
        end
      else Ok args
  | _ => Ok args
  end.

Definition visit_FuncDecl (generic_visit : M unit) : M unit :=
  decls <- collect generic_visit ;;
  last <- lift (index_back decls 1) ;;
  return_type <- lift (get_type_name last) ;;
  fname <- lift (get_name last) ;;
  args <- lift (elide_void (removelast decls)) ;;
  ptr <- child_of c_ast.is_PtrDecl 2 ;;
  typedef <- and_child_of ptr c_ast.is_Typedef 3 ;;
  if ptr && negb typedef then
    name <- path_name (Some "ft") ;;
    append_top (Type_ (Ptr (Function return_type (Some name) args))) ;;
    append (Str name)
  else
    append (Function return_type fname args).

Definition visit_PtrDecl (generic_visit : M unit) : M unit :=
  decls <- collect generic_visit ;;
  match decls with
  | [Str t] => append (Str t)
  | [d] => append (Ptr d)
  | _ => raise AssertionError
  end.

(** The text [visit_ArrayDecl] takes for a dimension. *)
Definition dim_text (dim : option c_ast.node) (constants : gmap string Z) : string :=
  match dim with
  | None => ""
  | Some d =>
      match c_ast.value_attr d with
      | Some v => v
      | None =>
          match c_ast.name_attr d with
          | Some (Some n) =>
              match constants !! n with
              | Some z => str_int z
              | None => ""
              end
          | _ => ""
          end
      end
  end.

(** [Array] keeps the list object that [dimension_stack] names when it is
    built, and the attribute is bound to a new list in the next statement:
    no list an [Array] holds is appended to afterwards, so the [Array]
    carries the value the list has at that point. *)
Definition visit_ArrayDecl (dim : option c_ast.node) (generic_visit : M unit)
    : M unit :=
  d <- get (λ s, dim_text dim (constants s)) ;;
  modify (λ s, set_dimension_stack (dimension_stack s ++ [d]) s) ;;
  decls <- collect generic_visit ;;
  match decls with
  | [x] =>
      dims <- get dimension_stack ;;
      append (Array x dims) ;;
      modify (set_dimension_stack [])
  | _ => raise AssertionError
  end.

(** [l[i]] for [i >= 0] *)
Definition index {A} (l : list A) (i : nat) : result A :=
  match l !! i with Some a => Ok a | None => Raise IndexError end.

Definition visit_Typedef (generic_visit : M unit) : M unit :=
  decls <- collect generic_visit ;;
  match decls with
  | [d] =>
      text <- lift (str d) ;;
      n0 <- lift (index (split text) 0) ;;
      n1 <- lift (index (split text) 1) ;;
      if negb (String.eqb n0 n1) then append_top (Type_ d) else ret tt
  | _ => ret tt
  end.

(** [NodeVisitor.visit]: the method [visit_<class>] when [AutoPxd] has one,
    [generic_visit] otherwise. *)
Definition dispatch (node : c_ast.node) (generic_visit : M unit) : M unit :=
  match node with
  | c_ast.IdentifierType names => visit_IdentifierType names
  | c_ast.Struct name decls => visit_Block name decls "struct" generic_visit
  | c_ast.Union name decls => visit_Block name decls "union" generic_visit
  | c_ast.Enum name values => visit_Enum name values
  | c_ast.TypeDecl declname _ => visit_TypeDecl declname generic_visit
  | c_ast.Decl name _ _ _ => visit_Decl name generic_visit
  | c_ast.FuncDecl _ _ => visit_FuncDecl generic_visit
  | c_ast.PtrDecl _ => visit_PtrDecl generic_visit
  | c_ast.ArrayDecl _ dim => visit_ArrayDecl dim generic_visit
  | c_ast.Typedef _ _ => visit_Typedef generic_visit
  | _ => generic_visit
  end.

Definition visit_each (visit : c_ast.node → M unit) : list c_ast.node → M unit :=
  fix go l :=
    match l with
    | [] => ret tt
    | c :: l' => visit c ;; go l'
    end.

Definition visit_opt (visit : c_ast.node → M unit) (c : option c_ast.node) : M unit :=
  match c with Some n => visit n | None => ret tt end.

(** [NodeVisitor.generic_visit]: the children in the order of
    [c_ast.children], each through [visit]. *)
Definition generic_visit (visit : c_ast.node → M unit) (node : c_ast.node) : M unit :=
  match node with
  | c_ast.FileAST l | c_ast.ParamList l | c_ast.Expr _ l => visit_each visit l
  | c_ast.Decl _ ty init bitsize =>
      visit ty ;; visit_opt visit init ;; visit_opt visit bitsize
  | c_ast.Typedef _ ty | c_ast.Typename _ ty | c_ast.TypeDecl _ ty
  | c_ast.PtrDecl ty => visit ty
  | c_ast.ArrayDecl ty dim => visit ty ;; visit_opt visit dim
  | c_ast.FuncDecl args ty => visit_opt visit args ;; visit ty
  | c_ast.Struct _ decls | c_ast.Union _ decls =>
      match decls with Some l => visit_each visit l | None => ret tt end
  | c_ast.EllipsisParam | c_ast.Enum _ _ | c_ast.IdentifierType _
  | c_ast.Constant _ _ | c_ast.ID _ => ret tt
  end.

(** The end of [AutoPxd.visit]: [n = self.visit_stack.pop()] and
    [assert n == node]. *)
Definition visit_stack_pop (node : c_ast.node) : M unit :=
  λ s, match pop_last (visit_stack s) with
       | Some (n, vs) => assert (c_ast.node_eqb n node) (set_visit_stack vs s)
       | None => Raise IndexError
       end.

(** [AutoPxd.visit] *)
Fixpoint visit (node : c_ast.node) : M unit :=
  modify (λ s, set_visit_stack (visit_stack s ++ [node]) s) ;;
  dispatch node (generic_visit visit node) ;;
  visit_stack_pop node.

Definition dquote : string := String (Ascii.ascii_of_nat 34) "".

(** The loop of [AutoPxd.lines] over the top-level list. *)
Fixpoint top_level_lines (decls : list pyobj) : result (list string) :=
  match decls with
  | [] => Ok []
  | d :: decls' =>
      match lines d with
      | Raise e => Raise e
      | Ok ls =>
          match top_level_lines decls' with
          | Ok rest => Ok ((String.append indent <$> ls) ++ [""] ++ rest)
          | Raise e => Raise e
          end
      end
  end.

(** [AutoPxd.lines] *)
Definition AutoPxd_lines (s : AutoPxd) : result (list string) :=
  match decl_stack s with
  | [] => Raise IndexError
  | top :: _ =>
      match top_level_lines top with
      | Ok body =>
          Ok (("cdef extern from " +:+ dquote +:+ hdrname s +:+ dquote +:+ ":")
                :: "" :: body)
      | Raise e => Raise e
      end
  end.

(** The import line [translate] puts first. *)
Definition cimport (stdint : list string) : string :=
  match stdint with
  | [] => ""
  | _ => "from libc.stdint cimport " +:+ join ", " stdint +:+ nl +:+ nl
  end.

(** The text [translate] assembles once the visitor [p] has walked the
    tree: the import line, then [str(p)]. *)
Definition pxd_string (p : AutoPxd) : result string :=
  match AutoPxd_lines p with
  | Raise e => Raise e
  | Ok ls => Ok (cimport (stdint_declarations p) +:+ join nl ls)
  end.

(** The walk and the text, from the visitor object [p]. *)
Definition translate_from (p : AutoPxd) (ast : c_ast.node) : result string :=
  match visit ast p with
  | Raise e => Raise e
  | Ok (_, p') => pxd_string p'
  end.

(** [translate], from the tree [parse] returns: preprocessing, parsing and
    the filter on top-level names happen before the visitor runs. *)
Definition translate (ast : c_ast.node) (hdrname : string) : result string :=
  translate_from (AutoPxd_init hdrname) ast.

(** The state a run leaves, for statements about the accumulators. *)
Definition run (ast : c_ast.node) (hdrname : string) : result AutoPxd :=
  match visit ast (AutoPxd_init hdrname) with
  | Ok (_, p) => Ok p
  | Raise e => Raise e
  end.

(** ** The vocabulary of the statements *)

(** From [s] to [s'] the ancestor stack and the depth of [decl_stack] are
    the same, and the fixed-width names noted went from [l] to [F l]. *)
Definition effect (F : list string → list string) (s s' : AutoPxd) : Prop :=
  visit_stack s' = visit_stack s
  ∧ stdint_declarations s' = F (stdint_declarations s)
  ∧ length (decl_stack s') = length (decl_stack s).

(** Every run of [m] that returns has the effect [F]. *)
Definition has_effect {A} (F : list string → list string) (m : M A) : Prop :=
  ∀ s a s', m s = Ok (a, s') → effect F s s'.

(** A method that notes no name. *)
Abbreviation quiet := (has_effect (λ l, l)).

(** The names of the [IdentifierType] nodes the walk reaches, in the order
    it reaches them.  Nothing below an [Enum] is visited. *)
Fixpoint idnames (n : c_ast.node) : list string :=
  match n with
  | c_ast.IdentifierType names => names
  | c_ast.FileAST l | c_ast.ParamList l | c_ast.Expr _ l => flat_map idnames l
  | c_ast.Decl _ ty init bitsize =>
      idnames ty ++ from_option idnames [] init ++ from_option idnames [] bitsize
  | c_ast.Typedef _ ty | c_ast.Typename _ ty | c_ast.TypeDecl _ ty
  | c_ast.PtrDecl ty => idnames ty
  | c_ast.ArrayDecl ty dim => idnames ty ++ from_option idnames [] dim
  | c_ast.FuncDecl args ty => from_option idnames [] args ++ idnames ty
  | c_ast.Struct _ decls | c_ast.Union _ decls =>
      from_option (flat_map idnames) [] decls
  | c_ast.EllipsisParam | c_ast.Enum _ _ | c_ast.Constant _ _ | c_ast.ID _ => []
  end.

(** [stdint_declarations] after [visit_IdentifierType] has gone through
    [names], from [seen]. *)
Definition noted (names : list string) (seen : list string) : list string :=
  fold_left note_stdint names seen.

(** The method of [n] notes the names of the subtree of [n]. *)
Definition method_effect (n : c_ast.node) : Prop :=
  has_effect (noted (idnames n)) (dispatch n (generic_visit visit n)).

(** Sample declarations, as [pycparser] builds them. *)
Module Samples.
Import c_ast.

(** [int x;] as a field or a global. *)
Definition int_x : node :=
  Decl (Some "x") (TypeDecl (Some "x") (c_ast.IdentifierType ["int"])) None None.

(** [typedef struct { int x; } foo_t;] *)
Definition typedef_struct_foo_t : node :=
  Typedef (Some "foo_t") (TypeDecl (Some "foo_t") (Struct None (Some [int_x]))).

(** [enum { A, B = 5, C };] *)
Definition enum_ABC : node :=
  Decl None
    (c_ast.Enum None
       (Some [("A", None); ("B", Some (Constant "int" "5")); ("C", None)]))
    None None.

(** [int arr[C];] *)
Definition int_arr_C : node :=
  Decl (Some "arr")
    (ArrayDecl (TypeDecl (Some "arr") (c_ast.IdentifierType ["int"])) (Some (ID "C")))
    None None.

(** [int a[2][3];] *)
Definition int_a_2_3 : node :=
  Decl (Some "a")
    (ArrayDecl
       (ArrayDecl (TypeDecl (Some "a") (c_ast.IdentifierType ["int"]))
          (Some (Constant "int" "3")))
       (Some (Constant "int" "2")))
    None None.

(** [typedef long long ll;] *)
Definition typedef_ll : node :=
  Typedef (Some "ll") (TypeDecl (Some "ll") (c_ast.IdentifierType ["long"; "long"])).

(** The parameter list [(void)]. *)
Definition void_params : node :=
  ParamList [Typename None (TypeDecl None (c_ast.IdentifierType ["void"]))].

(** [void f(void);] *)
Definition void_f_void : node :=
  Decl (Some "f")
    (FuncDecl (Some void_params) (TypeDecl (Some "f") (c_ast.IdentifierType ["void"])))
    None None.

(** The [FuncDecl] of the field [cb], a pointer to a function from
    [uint32_t] to [int]. *)
Definition cb_FuncDecl : node :=
  FuncDecl
    (Some (ParamList [Typename None (TypeDecl None (c_ast.IdentifierType ["uint32_t"]))]))
    (TypeDecl (Some "cb") (c_ast.IdentifierType ["int"])).

Definition cb_Decl : node := Decl (Some "cb") (PtrDecl cb_FuncDecl) None None.

(** [struct bar] with the field [cb] as only member. *)
Definition struct_bar : node :=
  Decl None (Struct (Some "bar") (Some [cb_Decl])) None None.

(** [enum { A, B };] at top level. *)
Definition enum_AB : node :=
  Decl None (c_ast.Enum None (Some [("A", None); ("B", None)])) None None.

(** [int64_t f(uint32_t a, int64_t b, uint32_t c);] *)
Definition stdint_user : node :=
  let param x t := Decl (Some x) (TypeDecl (Some x) (c_ast.IdentifierType [t])) None None in
  Decl (Some "f")
    (FuncDecl
       (Some (ParamList [param "a" "uint32_t"; param "b" "int64_t"; param "c" "uint32_t"]))
       (TypeDecl (Some "f") (c_ast.IdentifierType ["int64_t"])))
    None None.

End Samples.

(** The chain of [ArrayDecl] nodes of a declarator with the dimensions
    [dims], outermost first, around the declarator [base]. *)
Fixpoint array_chain (dims : list (option c_ast.node)) (base : c_ast.node)
    : c_ast.node :=
  match dims with
  | [] => base
  | d :: dims' => c_ast.ArrayDecl (array_chain dims' base) d
  end.

(** An expression made of constants, identifiers and operators: no type
    name occurs in it. *)
Fixpoint pure_expr (n : c_ast.node) : bool :=
  match n with
  | c_ast.Constant _ _ | c_ast.ID _ => true
  | c_ast.Expr _ operands => forallb pure_expr operands
  | _ => false
  end.

(** A dimension that is absent or such an expression. *)
Definition pure_dim (d : option c_ast.node) : bool :=
  match d with
  | None => true
  | Some n => pure_expr n
  end.

(** [base] resolves to [x]: wherever it is visited, the visit adds [x] to
    the list being collected, notes the fixed-width names of [base], and
    does nothing else. *)
Definition resolves_to (base : c_ast.node) (x : pyobj) : Prop :=
  ∀ s fr cur,
    decl_stack s = fr ++ [cur] →
    visit base s =
      Ok (tt, mkAutoPxd (hdrname s) (fr ++ [cur ++ [x]]) (visit_stack s)
                (noted (idnames base) (stdint_declarations s))
                (dimension_stack s) (constants s)).

(** [k] [Array] nodes without dimensions around [x]. *)
Fixpoint wrap_Array (k : nat) (x : pyobj) : pyobj :=
  match k with
  | O => x
  | S k' => Array (wrap_Array k' x) []
  end.

(** The texts of the dimensions of a chain. *)
Definition dim_texts (constants : gmap string Z) (dims : list (option c_ast.node))
    : list string :=
  (λ d, dim_text d constants) <$> dims.

(** The [ArrayDecl] nodes of a chain, outermost first: the ancestors the
    walk has pushed when it reaches the declarator [base] below them. *)
Fixpoint chain_nodes (dims : list (option c_ast.node)) (base : c_ast.node)
    : list c_ast.node :=
  match dims with
  | [] => []
  | d :: dims' => array_chain (d :: dims') base :: chain_nodes dims' base
  end.

(** The state in which the walk reaches [base] below a chain it entered in
    the state [s]: every [ArrayDecl] of the chain has pushed itself on
    [visit_stack], the text of its dimension on [dimension_stack], and the
    list of its [collect] on [decl_stack]. *)
Definition below_arrays (dims : list (option c_ast.node)) (base : c_ast.node)
    (s : AutoPxd) : AutoPxd :=
  mkAutoPxd (hdrname s) (decl_stack s ++ replicate (length dims) [])
    (visit_stack s ++ chain_nodes dims base) (stdint_declarations s)
    (dimension_stack s ++ dim_texts (constants s) dims) (constants s).

(** The alias [visit_FuncDecl] adds to the top level for a pointer to a
    function. *)
Definition FuncDecl_alias (return_type name : string) (args : list pyobj) : pyobj :=
  Type_ (Ptr (Function return_type (Some name) args)).

(** The text [translate] returns for a header named [foo.h] whose
    declarations render as [body]. *)
Definition foo_h (body : list string) : string :=
  join nl (("cdef extern from " +:+ dquote +:+ "foo.h" +:+ dquote +:+ ":") :: "" :: body).

(** The elements of a list in the order of their first occurrence. *)
Fixpoint first_seen (l : list string) : list string :=
  match l with
  | [] => []
  | x :: l' => x :: filter (λ y, y ≠ x) (first_seen l')
  end.

(** A line [translate] could be taken to be an import line. *)
Definition is_cimport (line : string) : bool :=
  String.prefix "from libc.stdint cimport " line.

(** [int64_t f(uint32_t a, int64_t b, uint32_t c);]: the walk meets the
    arguments before the return type. *)
Definition stdint_user_text : string :=
  "from libc.stdint cimport uint32_t, int64_t" +:+ nl +:+ nl
  +:+ foo_h ["    int64_t f(uint32_t a, int64_t b, uint32_t c)"; ""].

(** From [s] to [s'] every list of [decl_stack] kept what it held and got
    new entries at its end only, the header name is the same, no key of
    [constants] is gone, and [dimension_stack] is as it was or empty. *)
Definition grows (s s' : AutoPxd) : Prop :=
  Forall2 prefix (decl_stack s) (decl_stack s')
  ∧ hdrname s' = hdrname s
  ∧ dom (constants s) ⊆ dom (constants s')
  ∧ (dimension_stack s' = dimension_stack s ∨ dimension_stack s' = []).

(** Every run of [m] that returns only grows the state. *)
Definition keeps {A} (m : M A) : Prop :=
  ∀ s a s', m s = Ok (a, s') → grows s s'.

(** A [Struct] or a [Union] node, and the [kind] its method passes to
    [visit_Block]. *)
Definition aggregate (union : bool) (name : option string)
    (decls : option (list c_ast.node)) : c_ast.node :=
  if union then c_ast.Union name decls else c_ast.Struct name decls.

Definition kind_of (union : bool) : string :=
  if union then "union" else "struct".

(** The name [visit_Block] and [visit_Enum] take for a node without name
    that is the target of a typedef, and the name [visit_Block] takes for
    one that is not, from the names of the ancestors. *)
Definition untagged_name (names : list string) : string := join "_" names.
Definition tagged_name (names : list string) (tag : string) : string :=
  "_" +:+ join "_" names +:+ "_" +:+ tag.

(** [k] [PtrDecl] nodes around the declarator [base], and [k] [Ptr] nodes
    around the output node [x]. *)
Fixpoint ptr_chain (k : nat) (base : c_ast.node) : c_ast.node :=
  match k with
  | O => base
  | S k' => c_ast.PtrDecl (ptr_chain k' base)
  end.

Fixpoint wrap_Ptr (k : nat) (x : pyobj) : pyobj :=
  match k with
  | O => x
  | S k' => Ptr (wrap_Ptr k' x)
  end.

(** [k] stars. *)
Fixpoint stars (k : nat) : string :=
  match k with
  | O => ""
  | S k' => stars k' +:+ "*"
  end.

(** The set [IGNORE_DECLARATIONS]. *)
Definition IGNORE_DECLARATIONS : gset string :=
  list_to_set
  [ "size_t"; "__builtin_va_list"; "__gnuc_va_list"; "__int8_t"; "__uint8_t";
    "__int16_t"; "__uint16_t"; "__int_least16_t"; "__uint_least16_t";
    "__int32_t"; "__uint32_t"; "__int64_t"; "__uint64_t"; "__int_least32_t";
    "__uint_least32_t"; "__s8"; "__u8"; "__s16"; "__u16"; "__s32"; "__u32";
    "__s64"; "__u64"; "_LOCK_T"; "_LOCK_RECURSIVE_T"; "_off_t"; "__dev_t";
    "__uid_t"; "__gid_t"; "_off64_t"; "_fpos_t"; "_ssize_t"; "wint_t";
    "_mbstate_t"; "_flock_t"; "_iconv_t"; "__ULong"; "__FILE"; "ptrdiff_t";
    "wchar_t"; "__off_t"; "__pid_t"; "__loff_t"; "u_char"; "u_short";
    "u_int"; "u_long"; "ushort"; "uint"; "clock_t"; "time_t"; "daddr_t";
    "caddr_t"; "ino_t"; "off_t"; "dev_t"; "uid_t"; "gid_t"; "pid_t"; "key_t";
    "ssize_t"; "mode_t"; "nlink_t"; "fd_mask"; "_types_fd_set"; "clockid_t";
    "timer_t"; "useconds_t"; "suseconds_t"; "FILE"; "fpos_t";
    "cookie_read_function_t"; "cookie_write_function_t";
    "cookie_seek_function_t"; "cookie_close_function_t";
    "cookie_io_functions_t"; "div_t"; "ldiv_t"; "lldiv_t"; "sigset_t";
    "__sigset_t"; "_sig_func_ptr"; "sig_atomic_t"; "__tzrule_type";
    "__tzinfo_type"; "mbstate_t"; "sem_t"; "pthread_t"; "pthread_attr_t";
    "pthread_mutex_t"; "pthread_mutexattr_t"; "pthread_cond_t";
    "pthread_condattr_t"; "pthread_key_t"; "pthread_once_t";
    "pthread_rwlock_t"; "pthread_rwlockattr_t"; "pthread_spinlock_t";
    "pthread_barrier_t"; "pthread_barrierattr_t"; "jmp_buf"; "rlim_t";
    "sa_family_t"; "sigjmp_buf"; "stack_t"; "siginfo_t"; "z_stream";
    "int8_t"; "uint8_t"; "int16_t"; "uint16_t"; "int32_t"; "uint32_t";
    "int64_t"; "uint64_t"; "int_least8_t"; "uint_least8_t"; "int_least16_t";
    "uint_least16_t"; "int_least32_t"; "uint_least32_t"; "int_least64_t";
    "uint_least64_t"; "int_fast8_t"; "uint_fast8_t"; "int_fast16_t";
    "uint_fast16_t"; "int_fast32_t"; "uint_fast32_t"; "int_fast64_t";
    "uint_fast64_t"; "intptr_t"; "uintptr_t"; "intmax_t"; "uintmax_t";
    "bool"; "va_list" ].

(** [x in whitelist] is asked only when [whitelist] is neither [None] nor
    empty. *)
Definition whitelisted (whitelist : option (list string)) (file : string) : bool :=
  match whitelist with
  | None | Some [] => true
  | Some w => mem file w
  end.

(** The test of the loop of [parse] on a declaration of [ast.ext], given
    with the file of its [coord]: it has a [name], the name is not in
    [IGNORE_DECLARATIONS] ([None] never is), and the file passes the
    whitelist. *)
Definition parse_keeps (whitelist : option (list string))
    (decl : c_ast.node * string) : bool :=
  match c_ast.name_attr decl.1 with
  | None => false
  | Some name =>
      match name with
      | Some n => negb (bool_decide (n ∈ IGNORE_DECLARATIONS))
      | None => true
      end
      && whitelisted whitelist decl.2
  end.

(** The list [parse] assigns to [ast.ext]. *)
Definition parse_ext (whitelist : option (list string))
    (ext : list (c_ast.node * string)) : list (c_ast.node * string) :=
  List.filter (parse_keeps whitelist) ext.

(** A text is held as the bytes of its UTF-8 form: a character is one
    leading byte and the continuation bytes after it, none for a character
    of ASCII. *)
Definition is_continuation (c : Ascii.ascii) : bool :=
  let n := Ascii.nat_of_ascii c in
  Nat.leb 128 n && Nat.ltb n 192.

(** The number of continuation bytes a leading byte announces. *)
Definition utf8_trail (c : Ascii.ascii) : option nat :=
  let n := Ascii.nat_of_ascii c in
  if Nat.ltb n 128 then Some 0
  else if Nat.ltb n 192 then None
  else if Nat.ltb n 224 then Some 1
  else if Nat.ltb n 240 then Some 2
  else if Nat.ltb n 248 then Some 3
  else None.

(** The bytes of one character. *)
Definition utf8_char (ch : string) : bool :=
  match String.list_ascii_of_string ch with
  | [] => false
  | lead :: trail =>
      match utf8_trail lead with
      | Some k => Nat.eqb (length trail) k && forallb is_continuation trail
      | None => false
      end
  end.

(** The bytes of a text, last byte first, without its last character. *)
Fixpoint drop_char_rev (l : list Ascii.ascii) : list Ascii.ascii :=
  match l with
  | [] => []
  | c :: l' => if is_continuation c then drop_char_rev l' else l'
  end.

(** [s[:-1]]: the text without its last character, and the empty text when
    it has none. *)
Definition drop_last_char (s : string) : string :=
  String.string_of_list_ascii (rev (drop_char_rev (rev (String.list_ascii_of_string s)))).

(** [input_path[:-1] + 'pxd'], the [output_path] that
    [translate_command_line] takes when it is given none. *)
Definition default_output_path (input_path : string) : string :=
  drop_last_char input_path +:+ "pxd".

(** A text with a letter of the Latin alphabet in it. *)
Definition is_letter (c : Ascii.ascii) : bool :=
  let n := Ascii.nat_of_ascii c in
  (Nat.leb 65 n && Nat.leb n 90) || (Nat.leb 97 n && Nat.leb n 122).

Definition has_letter (s : string) : bool :=
  existsb is_letter (String.list_ascii_of_string s).

(** ** Basic facts: lists used as stacks *)

Lemma append_last_snoc {A} (x : A) (ll : list (list A)) (f : list A) :
  append_last x (ll ++ [f]) = Some (ll ++ [f ++ [x]]).
Proof.
  unfold append_last. rewrite rev_app_distr. simpl. by rewrite rev_involutive.
Qed.

Lemma pop_last_snoc {A} (l : list A) (x : A) :
  pop_last (l ++ [x]) = Some (x, l).
Proof.
  unfold pop_last. rewrite rev_app_distr. simpl. by rewrite rev_involutive.
Qed.

Lemma pop_last_Some {A} (l l' : list A) (x : A) :
  pop_last l = Some (x, l') → l = l' ++ [x].
Proof.
  unfold pop_last. destruct (rev l) as [|y r] eqn:E; [done|].
  intros [= <- <-]. rewrite <- (rev_involutive l), E. done.
Qed.

Lemma append_last_length {A} (x : A) (ll ll' : list (list A)) :
  append_last x ll = Some ll' → length ll' = length ll.
Proof.
  unfold append_last. destruct (rev ll) as [|f r] eqn:E; [done|].
  intros [= <-]. rewrite <- (rev_involutive ll), E. simpl.
  rewrite !length_app, !length_rev. done.
Qed.

Lemma append_first_length {A} (x : A) (ll ll' : list (list A)) :
  append_first x ll = Some ll' → length ll' = length ll.
Proof. destruct ll; [done|]. by intros [= <-]. Qed.

Lemma index_back_snoc2 {A} (l : list A) (x y : A) :
  index_back (l ++ [x; y]) 2 = Ok x.
Proof. unfold index_back. rewrite rev_app_distr. done. Qed.

Lemma index_back_snoc3 {A} (l : list A) (x y z : A) :
  index_back (l ++ [x; y; z]) 3 = Ok x.
Proof. unfold index_back. rewrite rev_app_distr. done. Qed.

Lemma drop_last2_snoc {A} (l : list A) (x y : A) : drop_last2 (l ++ [x; y]) = l.
Proof.
  unfold drop_last2. rewrite length_app. simpl.
  replace (length l + 2 - 2) with (length l) by lia.
  by rewrite take_app_length.
Qed.

(** ** Basic facts: the monad *)

Lemma bind_Ok {A B} (m : M A) (k : A → M B) s r :
  bind m k s = Ok r ↔ ∃ a s1, m s = Ok (a, s1) ∧ k a s1 = Ok r.
Proof.
  unfold bind. split.
  - destruct (m s) as [[a s1]|e]; [|done]. eauto.
  - by intros (a & s1 & -> & ?).
Qed.

Lemma bind_eval {A B} (m : M A) (k : A → M B) s a s1 :
  m s = Ok (a, s1) → bind m k s = k a s1.
Proof. unfold bind. by intros ->. Qed.

Lemma lift_Ok {A} (r : result A) s a s' :
  lift r s = Ok (a, s') ↔ r = Ok a ∧ s' = s.
Proof.
  unfold lift. destruct r; split.
  - by intros [= -> ->].
  - by intros [[= ->] ->].
  - done.
  - by intros [? _].
Qed.

(** Splits a successful run of monadic code, hypothesis by hypothesis. *)
Ltac monad_inv :=
  repeat match goal with
  | H : bind _ _ _ = Ok _ |- _ =>
      apply bind_Ok in H; destruct H as (? & ? & ? & H)
  | H : ret _ _ = Ok _ |- _ => unfold ret in H; simplify_eq
  | H : raise _ _ = Ok _ |- _ => discriminate H
  | H : get _ _ = Ok _ |- _ => unfold get in H; simplify_eq
  | H : modify _ _ = Ok _ |- _ => unfold modify in H; simplify_eq
  | H : lift _ _ = Ok _ |- _ =>
      let E := fresh "E" in apply lift_Ok in H; destruct H as [E ?]; subst
  | H : assert ?b _ = Ok _ |- _ =>
      unfold assert in H; destruct b eqn:?; [|discriminate H]
  | H : Raise _ = Ok _ |- _ => discriminate H
  | H : Ok _ = Ok _ |- _ => simplify_eq
  end.

(** ** The comparison of a node with itself *)

Lemma string_eqb_refl (s : string) : String.eqb s s = true.
Proof. apply String.eqb_refl. Qed.

Lemma list_eqb_refl {A} (eqb : A → A → bool) (l : list A) :
  Forall (λ a, eqb a a = true) l → c_ast.list_eqb eqb l l = true.
Proof. induction 1; simpl; [done|]. by rewrite H, IHForall. Qed.

Lemma list_all_Forall {A} (P : A → Prop) (l : list A) :
  c_ast.list_all A P l → Forall P l.
Proof. induction 1; by constructor. Qed.

Lemma option_eqb_refl {A} (eqb : A → A → bool) (o : option A) :
  c_ast.option_all A (λ a, eqb a a = true) o → c_ast.option_eqb eqb o o = true.
Proof. by destruct 1. Qed.

Lemma list_eqb_refl_all {A} (eqb : A → A → bool) (l : list A) :
  c_ast.list_all A (λ a, eqb a a = true) l → c_ast.list_eqb eqb l l = true.
Proof. intros H. by apply list_eqb_refl, list_all_Forall. Qed.

Lemma node_eqb_refl (n : c_ast.node) : c_ast.node_eqb n n = true.
Proof.
  assert (Hs : ∀ o : option string, c_ast.option_eqb String.eqb o o = true).
  { intros [s|]; [apply string_eqb_refl|done]. }
  induction n; simpl;
    rewrite ?Hs, ?string_eqb_refl, ?IHn, ?IHn1, ?IHn2; simpl;
    rewrite ?option_eqb_refl, ?list_eqb_refl_all by done; simpl; try done.
  - (* Struct *) apply option_eqb_refl.
    destruct H; constructor. by apply list_eqb_refl_all.
  - (* Union *) apply option_eqb_refl.
    destruct H; constructor. by apply list_eqb_refl_all.
  - (* Enum *) apply option_eqb_refl.
    destruct H as [l Hl|]; constructor. apply list_eqb_refl_all.
    induction Hl as [|[x v] [? Hv] l Hl IH]; constructor; [|done].
    unfold c_ast.enumerator_eqb. simpl.
    rewrite string_eqb_refl. simpl. by apply option_eqb_refl.
  - (* IdentifierType *) apply list_eqb_refl, Forall_forall.
    intros. apply string_eqb_refl.
Qed.

(** ** What a method does to the walk

    Every method other than [visit_IdentifierType] has the effect of its
    [generic_visit]. *)

Lemma has_effect_ext {A} F G (m : M A) :
  has_effect F m → (∀ l, F l = G l) → has_effect G m.
Proof.
  intros H E s a s' Hm. destruct (H s a s' Hm) as (? & ? & ?).
  repeat split; [done| |done]. by rewrite <- E.
Qed.

Lemma has_effect_bind {A B} F G (m : M A) (k : A → M B) :
  has_effect F m → (∀ a, has_effect G (k a)) →
  has_effect (λ l, G (F l)) (bind m k).
Proof.
  intros Hm Hk s b s' H. apply bind_Ok in H as (a & s1 & H1 & H2).
  destruct (Hm _ _ _ H1) as (? & ? & ?), (Hk _ _ _ _ H2) as (? & ? & ?).
  repeat split; congruence.
Qed.

Lemma quiet_bind {A B} (m : M A) (k : A → M B) :
  quiet m → (∀ a, quiet (k a)) → quiet (bind m k).
Proof. intros. by apply (has_effect_bind (λ l, l) (λ l, l)). Qed.

Lemma quiet_then {A B} F (m : M A) (k : A → M B) :
  quiet m → (∀ a, has_effect F (k a)) → has_effect F (bind m k).
Proof. intros. by apply (has_effect_bind (λ l, l) F). Qed.

Lemma then_quiet {A B} F (m : M A) (k : A → M B) :
  has_effect F m → (∀ a, quiet (k a)) → has_effect F (bind m k).
Proof. intros. by apply (has_effect_bind F (λ l, l)). Qed.

Lemma quiet_ret {A} (a : A) : quiet (ret a).
Proof. by intros s b s' [= _ <-]. Qed.

Lemma quiet_raise {A} e : quiet (@raise A e).
Proof. by intros s b s' [=]. Qed.

Lemma quiet_lift {A} (r : result A) : quiet (lift r).
Proof. intros s b s' [_ ->]%lift_Ok. done. Qed.

Lemma quiet_get {A} (f : AutoPxd → A) : quiet (get f).
Proof. by intros s b s' [= _ <-]. Qed.

Lemma quiet_assert b : quiet (assert b).
Proof. destruct b; [apply quiet_ret|apply quiet_raise]. Qed.

Lemma quiet_append x : quiet (append x).
Proof.
  intros s b s'. unfold append.
  destruct (append_last x (decl_stack s)) as [ds|] eqn:E; [|done].
  intros [= _ <-]. apply append_last_length in E. done.
Qed.

Lemma quiet_append_top x : quiet (append_top x).
Proof.
  intros s b s'. unfold append_top.
  destruct (append_first x (decl_stack s)) as [ds|] eqn:E; [|done].
  intros [= _ <-]. apply append_first_length in E. done.
Qed.

Lemma quiet_child_of is_type k : quiet (child_of is_type k).
Proof.
  apply quiet_bind; [|intros; apply quiet_ret].
  intros s b s' [_ ->]%lift_Ok. done.
Qed.

Lemma quiet_and_child_of x is_type k : quiet (and_child_of x is_type k).
Proof. destruct x; [apply quiet_child_of|apply quiet_ret]. Qed.

Lemma quiet_path_name tag : quiet (path_name tag).
Proof. apply quiet_get. Qed.

Lemma quiet_set_dimension_stack f :
  quiet (modify (λ s, set_dimension_stack (f s) s)).
Proof. by intros s b s' [= _ <-]. Qed.

Lemma quiet_set_constants f : quiet (modify (λ s, set_constants (f s) s)).
Proof. by intros s b s' [= _ <-]. Qed.

Lemma quiet_Enum_values es value : quiet (Enum_values es value).
Proof.
  revert value. induction es as [|[name v] es IH]; intros value; simpl.
  - apply quiet_ret.
  - apply quiet_bind; [apply quiet_lift|]. intros value'.
    apply quiet_bind; [apply (quiet_set_constants (λ s, _))|]. intros _. apply IH.
Qed.

Create HintDb quiet discriminated.
#[local] Hint Resolve quiet_ret quiet_raise quiet_lift quiet_get quiet_assert
  quiet_append quiet_append_top quiet_child_of quiet_and_child_of
  quiet_path_name quiet_Enum_values : quiet.

(** Walks through monadic code whose every step is quiet. *)
Ltac quiet_tac :=
  repeat first
    [ progress eauto with quiet
    | apply quiet_bind; [|intros ?]
    | apply (quiet_set_dimension_stack (λ _, _))
    | apply (quiet_set_constants (λ _, _))
    | match goal with
      | |- has_effect _ (if ?b then _ else _) => destruct b
      | |- has_effect _ (match ?x with _ => _ end) => destruct x
      end ].

Lemma has_effect_collect F (gv : M unit) :
  has_effect F gv → has_effect F (collect gv).
Proof.
  intros Hgv s decls s' H. unfold collect in H.
  apply bind_Ok in H as ([] & s0 & [= <-] & H).
  apply bind_Ok in H as ([] & s1 & Hg & H).
  destruct (pop_last (decl_stack s1)) as [[d ds]|] eqn:E; [|done].
  simplify_eq. apply pop_last_Some in E.
  destruct (Hgv _ _ _ Hg) as (Hv & Hs & Hl). simpl in *.
  repeat split; simpl; [done..|].
  rewrite E, !length_app in Hl. simpl in Hl. lia.
Qed.

Lemma quiet_visit_Enum name values : quiet (visit_Enum name values).
Proof. unfold visit_Enum. quiet_tac. Qed.

Lemma has_effect_visit_named F name gv :
  has_effect F gv → has_effect F (visit_named name gv).
Proof.
  intros H. unfold visit_named.
  apply then_quiet; [by apply has_effect_collect|]. intros decls. quiet_tac.
Qed.

Lemma has_effect_visit_FuncDecl F gv :
  has_effect F gv → has_effect F (visit_FuncDecl gv).
Proof.
  intros H. unfold visit_FuncDecl.
  apply then_quiet; [by apply has_effect_collect|]. intros decls. quiet_tac.
Qed.

Lemma has_effect_visit_PtrDecl F gv :
  has_effect F gv → has_effect F (visit_PtrDecl gv).
Proof.
  intros H. unfold visit_PtrDecl.
  apply then_quiet; [by apply has_effect_collect|]. intros decls. quiet_tac.
Qed.

Lemma has_effect_visit_Typedef F gv :
  has_effect F gv → has_effect F (visit_Typedef gv).
Proof.
  intros H. unfold visit_Typedef.
  apply then_quiet; [by apply has_effect_collect|]. intros decls. quiet_tac.
Qed.

Lemma has_effect_visit_ArrayDecl F dim gv :
  has_effect F gv → has_effect F (visit_ArrayDecl dim gv).
Proof.
  intros H. unfold visit_ArrayDecl.
  apply quiet_then; [quiet_tac|]. intros d.
  apply quiet_then; [quiet_tac|]. intros _.
  apply then_quiet; [by apply has_effect_collect|]. intros decls. quiet_tac.
Qed.

Lemma has_effect_visit_Block F name decls kind gv :
  has_effect F gv → (no_decls decls = true → ∀ l, F l = l) →
  has_effect F (visit_Block name decls kind gv).
Proof.
  intros H Hno. unfold visit_Block.
  apply quiet_then; [quiet_tac|]. intros type_decl.
  apply quiet_then; [quiet_tac|]. intros type_def.
  apply quiet_then; [quiet_tac|]. intros name'.
  destruct (no_decls decls).
  - apply (has_effect_ext (λ l, l)); [quiet_tac|]. intros l. by rewrite Hno.
  - apply then_quiet; [by apply has_effect_collect|]. intros fields. quiet_tac.
Qed.

Lemma has_effect_visit_IdentifierType names :
  has_effect (fold_left note_stdint names) (visit_IdentifierType names).
Proof.
  unfold visit_IdentifierType. apply then_quiet; [|intros; quiet_tac].
  by intros s b s' [= _ <-].
Qed.

(** ** The walk as a whole *)

Lemma noted_app l1 l2 seen : noted (l1 ++ l2) seen = noted l2 (noted l1 seen).
Proof. apply fold_left_app. Qed.

Lemma has_effect_seq F G H (m : M unit) (k : M unit) :
  has_effect F m → has_effect G k → (∀ l, G (F l) = H l) →
  has_effect H (m ;; k).
Proof.
  intros Hm Hk E. eapply has_effect_ext; [|apply E].
  by apply (has_effect_bind F G).
Qed.

Lemma visit_unfold (node : c_ast.node) :
  visit node =
    (modify (λ s, set_visit_stack (visit_stack s ++ [node]) s) ;;
     dispatch node (generic_visit visit node) ;;
     visit_stack_pop node).
Proof. by destruct node. Qed.

(** A visit whose method has effect [F] on the state with the node pushed
    has effect [F], and its assertion holds. *)
Lemma has_effect_visit_of_dispatch F (node : c_ast.node) :
  has_effect F (dispatch node (generic_visit visit node)) →
  has_effect F (visit node).
Proof.
  intros Hd s [] s' H. rewrite visit_unfold in H.
  apply bind_Ok in H as ([] & s0 & [= <-] & H).
  apply bind_Ok in H as ([] & s1 & H1 & H).
  destruct (Hd _ _ _ H1) as (Hv & Hs & Hl). simpl in *.
  unfold visit_stack_pop in H. rewrite Hv, pop_last_snoc in H.
  unfold assert in H. rewrite node_eqb_refl in H.
  injection H as <-. by repeat split.
Qed.

Lemma has_effect_visit_each (l : list c_ast.node) :
  c_ast.list_all _ method_effect l →
  has_effect (noted (flat_map idnames l)) (visit_each visit l).
Proof.
  induction 1 as [|n Hn l Hl IH]; simpl.
  - apply quiet_ret.
  - apply has_effect_visit_of_dispatch in Hn.
    eapply has_effect_seq; [apply Hn|apply IH|].
    intros seen. by rewrite noted_app.
Qed.

Lemma has_effect_visit_opt (o : option c_ast.node) :
  c_ast.option_all _ method_effect o →
  has_effect (noted (from_option idnames [] o)) (visit_opt visit o).
Proof.
  destruct 1; simpl; [by apply has_effect_visit_of_dispatch|apply quiet_ret].
Qed.

(** The effect of the method of a node: ancestor stack and depth of
    [decl_stack] as found, the fixed-width names of the subtree noted in
    order. *)
Lemma has_effect_dispatch (n : c_ast.node) : method_effect n.
Proof.
  unfold method_effect.
  induction n; simpl;
    repeat match goal with
    | H : has_effect _ (dispatch _ _) |- _ =>
        apply has_effect_visit_of_dispatch in H
    end.
  - by apply has_effect_visit_each.
  - apply has_effect_visit_named.
    eapply has_effect_seq; [apply IHn| |].
    + eapply has_effect_seq; [by apply has_effect_visit_opt..|done].
    + intros l. simpl. by rewrite !noted_app.
  - by apply has_effect_visit_Typedef.
  - done.
  - by apply has_effect_visit_named.
  - by apply has_effect_visit_PtrDecl.
  - apply has_effect_visit_ArrayDecl.
    eapply has_effect_seq; [apply IHn|by apply has_effect_visit_opt|].
    intros l. by rewrite noted_app.
  - apply has_effect_visit_FuncDecl.
    eapply has_effect_seq; [by apply has_effect_visit_opt|apply IHn|].
    intros l. by rewrite noted_app.
  - by apply has_effect_visit_each.
  - apply quiet_ret.
  - apply has_effect_visit_Block.
    + destruct H; simpl; [by apply has_effect_visit_each|apply quiet_ret].
    + by destruct decls as [[|]|].
  - apply has_effect_visit_Block.
    + destruct H; simpl; [by apply has_effect_visit_each|apply quiet_ret].
    + by destruct decls as [[|]|].
  - apply quiet_visit_Enum.
  - apply has_effect_visit_IdentifierType.
  - apply quiet_ret.
  - apply quiet_ret.
  - by apply has_effect_visit_each.
Qed.

Lemma has_effect_visit (n : c_ast.node) :
  has_effect (noted (idnames n)) (visit n).
Proof. apply has_effect_visit_of_dispatch, has_effect_dispatch. Qed.

Lemma visit_visit_stack n s a s' :
  visit n s = Ok (a, s') → visit_stack s' = visit_stack s.
Proof. intros H. by destruct (has_effect_visit n _ _ _ H) as (? & _). Qed.

Lemma visit_decl_stack_length n s a s' :
  visit n s = Ok (a, s') → length (decl_stack s') = length (decl_stack s).
Proof. intros H. by destruct (has_effect_visit n _ _ _ H) as (_ & _ & ?). Qed.

Lemma visit_stdint_declarations n s a s' :
  visit n s = Ok (a, s') →
  stdint_declarations s' = noted (idnames n) (stdint_declarations s).
Proof. intros H. by destruct (has_effect_visit n _ _ _ H) as (_ & ? & _). Qed.

(** ** The ancestor stack *)

(** C10. A visit that returns leaves the ancestor stack as it found it: the
    method of the node ran on the stack with the node pushed and left the node
    on top of the same ancestors, which [pop] then removed; the path names
    read after the visit are the ones read before it, whatever the subtree
    was. *)
Theorem visit_restores_visit_stack (node : c_ast.node) (s s' : AutoPxd) :
  visit node s = Ok (tt, s') →
  visit_stack s' = visit_stack s
  ∧ (∃ s1,
       dispatch node (generic_visit visit node)
         (set_visit_stack (visit_stack s ++ [node]) s) = Ok (tt, s1)
       ∧ pop_last (visit_stack s1) = Some (node, visit_stack s))
  ∧ ∀ tag, path_name_of (path_names s') tag = path_name_of (path_names s) tag.
Proof.
  intros H. pose proof (visit_visit_stack _ _ _ _ H) as Hv.
  split; [done|]. split; [|intros tag; unfold path_names; by rewrite Hv].
  rewrite visit_unfold in H.
  apply bind_Ok in H as ([] & s0 & [= <-] & H).
  apply bind_Ok in H as ([] & s1 & H1 & H).
  exists s1. split; [done|].
  destruct (has_effect_dispatch node _ _ _ H1) as (Hs1 & _). simpl in Hs1.
  by rewrite Hs1, pop_last_snoc.
Qed.

Lemma visit_restores_visit_stack_witness :
  let s := set_visit_stack [c_ast.FileAST [Samples.int_x]] (AutoPxd_init "foo.h") in
  let s' := set_decl_stack [[IdentifierType "x" "int"]] s in
  visit Samples.int_x s = Ok (tt, s')
  ∧ visit_stack s' = visit_stack s.
Proof.
  intros s s'.
  assert (H : visit Samples.int_x s = Ok (tt, s')) by (vm_compute; reflexivity).
  split; [exact H|].
  exact (proj1 (visit_restores_visit_stack Samples.int_x s s' H)).
Defined.

(** ** Evaluating the visitor on an arbitrary state *)

Lemma set_visit_stack_id s : set_visit_stack (visit_stack s) s = s.
Proof. by destruct s. Qed.

(** A visit whose method runs on the pushed state to a state with the same
    ancestor stack returns that state with the node popped. *)
Lemma visit_eval (node : c_ast.node) (s s1 : AutoPxd) :
  dispatch node (generic_visit visit node)
    (set_visit_stack (visit_stack s ++ [node]) s) = Ok (tt, s1) →
  visit node s = Ok (tt, set_visit_stack (visit_stack s) s1).
Proof.
  intros H. rewrite visit_unfold.
  erewrite bind_eval by reflexivity. erewrite bind_eval by exact H.
  destruct (has_effect_dispatch node _ _ _ H) as (Hv & _). simpl in Hv.
  unfold visit_stack_pop. rewrite Hv, pop_last_snoc.
  unfold assert. by rewrite node_eqb_refl.
Qed.

Lemma collect_eval (gv : M unit) (s s1 : AutoPxd) (ds : list (list pyobj))
    (decls : list pyobj) :
  gv (set_decl_stack (decl_stack s ++ [[]]) s) = Ok (tt, s1) →
  decl_stack s1 = ds ++ [decls] →
  collect gv s = Ok (decls, set_decl_stack ds s1).
Proof.
  intros H E. unfold collect.
  erewrite bind_eval by reflexivity. erewrite bind_eval by exact H.
  by rewrite E, pop_last_snoc.
Qed.

Lemma append_eval (x : pyobj) (s : AutoPxd) fr cur :
  decl_stack s = fr ++ [cur] →
  append x s = Ok (tt, set_decl_stack (fr ++ [cur ++ [x]]) s).
Proof. intros E. unfold append. by rewrite E, append_last_snoc. Qed.

Lemma append_top_eval (x : pyobj) (s : AutoPxd) top rest :
  decl_stack s = top :: rest →
  append_top x s = Ok (tt, set_decl_stack ((top ++ [x]) :: rest) s).
Proof. intros E. unfold append_top. by rewrite E. Qed.

Lemma visit_IdentifierType_eval names s fr cur :
  decl_stack s = fr ++ [cur] →
  visit (c_ast.IdentifierType names) s =
    Ok (tt, mkAutoPxd (hdrname s) (fr ++ [cur ++ [Str (join " " names)]])
              (visit_stack s) (noted names (stdint_declarations s))
              (dimension_stack s) (constants s)).
Proof.
  intros E. erewrite visit_eval.
  2:{ simpl. unfold visit_IdentifierType.
      erewrite bind_eval by reflexivity. apply append_eval. exact E. }
  reflexivity.
Qed.

(** A [TypeDecl] over an [IdentifierType] resolves to one
    [IdentifierType] output node in the list being collected. *)
Lemma visit_TypeDecl_IdentifierType declname names s fr cur :
  decl_stack s = fr ++ [cur] →
  visit (c_ast.TypeDecl declname (c_ast.IdentifierType names)) s =
    Ok (tt, mkAutoPxd (hdrname s)
              (fr ++ [cur ++ [IdentifierType (declname_or_empty declname)
                                (join " " names)]])
              (visit_stack s) (noted names (stdint_declarations s))
              (dimension_stack s) (constants s)).
Proof.
  intros E. erewrite visit_eval.
  2:{ simpl. unfold visit_TypeDecl, visit_named.
      erewrite bind_eval.
      2:{ eapply collect_eval.
          - apply visit_IdentifierType_eval. reflexivity.
          - reflexivity. }
      simpl. apply append_eval. exact E. }
  reflexivity.
Qed.

(** ** Arrays *)

Lemma resolves_to_TypeDecl declname names :
  resolves_to (c_ast.TypeDecl declname (c_ast.IdentifierType names))
    (IdentifierType (declname_or_empty declname) (join " " names)).
Proof. intros s fr cur E. by apply visit_TypeDecl_IdentifierType. Qed.

Lemma visit_each_pure (l : list c_ast.node) :
  c_ast.list_all _ (λ n, pure_expr n = true → ∀ s, visit n s = Ok (tt, s)) l →
  forallb pure_expr l = true →
  ∀ s, visit_each visit l s = Ok (tt, s).
Proof.
  induction 1 as [|n Hn l Hl IH]; intros Hp s; simpl; [done|].
  simpl in Hp. apply andb_prop in Hp as [Hpn Hpl].
  erewrite bind_eval by (by apply Hn). by apply IH.
Qed.

(** The visit of a pure expression changes nothing. *)
Lemma visit_pure_expr (n : c_ast.node) :
  pure_expr n = true → ∀ s, visit n s = Ok (tt, s).
Proof.
  induction n; try done; intros Hp s.
  - erewrite visit_eval by reflexivity. by destruct s.
  - erewrite visit_eval by reflexivity. by destruct s.
  - erewrite visit_eval.
    2:{ simpl dispatch. unfold generic_visit. by apply visit_each_pure. }
    by destruct s.
Qed.

Lemma visit_pure_dim d s : pure_dim d = true → visit_opt visit d s = Ok (tt, s).
Proof. destruct d; intros Hd; unfold visit_opt; [by apply visit_pure_expr|done]. Qed.

(** One [ArrayDecl] whose declarator resolves to the single node [x]. *)
Lemma visit_ArrayDecl_eval ty d s s1 fr cur x :
  pure_dim d = true →
  decl_stack s = fr ++ [cur] →
  visit ty
    (mkAutoPxd (hdrname s) (decl_stack s ++ [[]])
       (visit_stack s ++ [c_ast.ArrayDecl ty d]) (stdint_declarations s)
       (dimension_stack s ++ [dim_text d (constants s)]) (constants s))
  = Ok (tt, s1) →
  decl_stack s1 = (fr ++ [cur]) ++ [[x]] →
  visit (c_ast.ArrayDecl ty d) s =
    Ok (tt, mkAutoPxd (hdrname s1) (fr ++ [cur ++ [Array x (dimension_stack s1)]])
              (visit_stack s) (stdint_declarations s1) [] (constants s1)).
Proof.
  intros Hd E Hty E1. erewrite visit_eval.
  2:{ simpl. unfold visit_ArrayDecl.
      erewrite bind_eval by reflexivity. erewrite bind_eval by reflexivity.
      erewrite bind_eval.
      2:{ eapply collect_eval; [|exact E1].
          erewrite bind_eval by exact Hty. by apply visit_pure_dim. }
      simpl. erewrite bind_eval by reflexivity.
      erewrite bind_eval by (by apply append_eval).
      reflexivity. }
  reflexivity.
Qed.

Lemma visit_array_chain base x dims : ∀ d s fr cur,
  resolves_to base x →
  forallb pure_dim (d :: dims) = true →
  decl_stack s = fr ++ [cur] →
  visit (array_chain (d :: dims) base) s =
    Ok (tt, mkAutoPxd (hdrname s)
              (fr ++ [cur ++ [wrap_Array (length dims)
                                (Array x
                                   (dimension_stack s
                                    ++ dim_texts (constants s) (d :: dims)))]])
              (visit_stack s) (noted (idnames base) (stdint_declarations s)) []
              (constants s)).
Proof.
  induction dims as [|d' dims IH]; intros d s fr cur Hb Hd E;
    simpl in Hd; apply andb_prop in Hd as [Hd Hds].
  - change (array_chain [d] base) with (c_ast.ArrayDecl base d).
    erewrite visit_ArrayDecl_eval; cycle 1.
    + done.
    + exact E.
    + apply Hb. reflexivity.
    + simpl. by rewrite E.
    + reflexivity.
  - change (array_chain (d :: d' :: dims) base)
      with (c_ast.ArrayDecl (array_chain (d' :: dims) base) d).
    erewrite visit_ArrayDecl_eval; cycle 1.
    + done.
    + exact E.
    + apply IH; [done|done|reflexivity].
    + simpl. by rewrite E.
    + simpl. unfold dim_texts. simpl. by rewrite <- app_assoc.
Qed.

Lemma get_name_wrap_Array k x : get_name (wrap_Array k x) = get_name x.
Proof. induction k; simpl; done. Qed.

(** One [ArrayDecl] whose declarator leaves the single node [x] in the
    list of the [collect], whatever else its visit adds below that list. *)
Lemma visit_ArrayDecl_at ty d s s1 fr cur x :
  pure_dim d = true →
  visit ty
    (mkAutoPxd (hdrname s) (decl_stack s ++ [[]])
       (visit_stack s ++ [c_ast.ArrayDecl ty d]) (stdint_declarations s)
       (dimension_stack s ++ [dim_text d (constants s)]) (constants s))
  = Ok (tt, s1) →
  decl_stack s1 = (fr ++ [cur]) ++ [[x]] →
  visit (c_ast.ArrayDecl ty d) s =
    Ok (tt, mkAutoPxd (hdrname s1) (fr ++ [cur ++ [Array x (dimension_stack s1)]])
              (visit_stack s) (stdint_declarations s1) [] (constants s1)).
Proof.
  intros Hd Hty E1. erewrite visit_eval.
  2:{ simpl. unfold visit_ArrayDecl.
      erewrite bind_eval by reflexivity. erewrite bind_eval by reflexivity.
      erewrite bind_eval.
      2:{ eapply collect_eval; [|exact E1].
          erewrite bind_eval by exact Hty. by apply visit_pure_dim. }
      simpl. erewrite bind_eval by reflexivity.
      erewrite bind_eval by (by apply append_eval).
      reflexivity. }
  reflexivity.
Qed.

Lemma below_arrays_cons d dims base s :
  below_arrays (d :: dims) base s =
  below_arrays dims base
    (mkAutoPxd (hdrname s) (decl_stack s ++ [[]])
       (visit_stack s ++ [array_chain (d :: dims) base]) (stdint_declarations s)
       (dimension_stack s ++ [dim_text d (constants s)]) (constants s)).
Proof.
  unfold below_arrays, dim_texts. simpl.
  by rewrite <- !app_assoc.
Qed.

(** The chain from the visit of [base] below it, from any
    [dimension_stack]. *)
Lemma visit_array_chain_at base x dims : ∀ d s s1 fr cur,
  forallb pure_dim (d :: dims) = true →
  visit base (below_arrays (d :: dims) base s) = Ok (tt, s1) →
  decl_stack s1 = fr ++ [cur] ++ replicate (length dims) [] ++ [[x]] →
  visit (array_chain (d :: dims) base) s =
    Ok (tt, mkAutoPxd (hdrname s1)
              (fr ++ [cur ++ [wrap_Array (length dims)
                                (Array x (dimension_stack s1))]])
              (visit_stack s) (stdint_declarations s1) [] (constants s1)).
Proof.
  induction dims as [|d' dims IH]; intros d s s1 fr cur Hd Hb E1;
    simpl in Hd; apply andb_prop in Hd as [Hd Hds].
  - change (array_chain [d] base) with (c_ast.ArrayDecl base d).
    apply visit_ArrayDecl_at; [exact Hd|exact Hb|].
    rewrite E1. simpl. by rewrite <- app_assoc.
  - change (array_chain (d :: d' :: dims) base)
      with (c_ast.ArrayDecl (array_chain (d' :: dims) base) d).
    rewrite below_arrays_cons in Hb.
    erewrite visit_ArrayDecl_at; cycle 1.
    + exact Hd.
    + apply (IH d' _ s1 (fr ++ [cur]) []); [exact Hds|exact Hb|].
      rewrite E1. simpl. by rewrite <- !app_assoc.
    + reflexivity.
    + reflexivity.
Qed.

(** C7, as the code has it. A chain of directly nested [ArrayDecl] nodes,
    with dimensions that are absent or expressions without type names,
    entered with an empty [dimension_stack], around a declarator whose own
    visit leaves one node [x] in the list being collected and
    [dimension_stack] as it found it: the chain resolves to as many nested
    [Array] nodes.  The innermost holds the dimensions of the whole chain in
    order, outermost first; every [Array] around it holds none; the name
    that is rendered is the name of [x] followed by all the dimensions in
    brackets. *)
Theorem array_chain_resolution (base : c_ast.node) (x : pyobj)
    (d : option c_ast.node) (dims : list (option c_ast.node))
    (s s1 : AutoPxd) (fr : list (list pyobj)) (cur : list pyobj) :
  let texts := dim_texts (constants s) (d :: dims) in
  let resolved := wrap_Array (length dims) (Array x texts) in
  forallb pure_dim (d :: dims) = true →
  dimension_stack s = [] →
  visit base (below_arrays (d :: dims) base s) = Ok (tt, s1) →
  decl_stack s1 = fr ++ [cur] ++ replicate (length dims) [] ++ [[x]] →
  dimension_stack s1 = dimension_stack (below_arrays (d :: dims) base s) →
  ∃ s',
    visit (array_chain (d :: dims) base) s = Ok (tt, s')
    ∧ decl_stack s' = fr ++ [cur ++ [resolved]]
    ∧ dimension_stack s' = []
    ∧ ∀ name, get_name x = Ok (Some name) →
        get_name resolved = Ok (Some (name +:+ "[" +:+ join "][" texts +:+ "]")).
Proof.
  intros texts resolved Hd Hs Hb E1 Hds.
  assert (Ht : dimension_stack s1 = texts).
  { rewrite Hds. simpl. by rewrite Hs. }
  eexists. split; [by eapply visit_array_chain_at|].
  simpl. rewrite Ht. split; [reflexivity|]. split; [reflexivity|].
  intros name Hx. unfold resolved. rewrite get_name_wrap_Array. simpl.
  rewrite Hx. reflexivity.
Qed.

Lemma array_chain_resolution_witness :
  let base := c_ast.TypeDecl (Some "a") (c_ast.Struct (Some "foo") None) in
  let dims := [Some (c_ast.Constant "int" "2"); Some (c_ast.Constant "int" "3")] in
  let decl := c_ast.Decl (Some "a") (array_chain dims base) None None in
  let s := mkAutoPxd "foo.h" [[]; []] [c_ast.FileAST [decl]; decl] [] [] ∅ in
  ∃ s',
    visit (array_chain dims base) s = Ok (tt, s')
    ∧ decl_stack s' = [[]; [Array (Array (IdentifierType "a" "foo") ["2"; "3"]) []]]
    ∧ dimension_stack s' = []
    ∧ ∀ name, get_name (IdentifierType "a" "foo") = Ok (Some name) →
        get_name (Array (Array (IdentifierType "a" "foo") ["2"; "3"]) [])
        = Ok (Some (name +:+ "[" +:+ join "][" ["2"; "3"] +:+ "]")).
Proof.
  intros base dims decl s.
  refine (array_chain_resolution base (IdentifierType "a" "foo")
            (Some (c_ast.Constant "int" "2")) [Some (c_ast.Constant "int" "3")]
            s (mkAutoPxd "foo.h" [[]; []; []; [IdentifierType "a" "foo"]]
                 (visit_stack s ++ chain_nodes dims base) [] ["2"; "3"] ∅)
            [[]] [] _ _ _ _ _);
    vm_compute; reflexivity.
Defined.

(** C7, as stated, fails on [int a[2][3];]: the declaration resolves to an
    [Array] without dimensions around the [Array] that holds both, not to
    the single [Array] over the named type. *)
Lemma array_chain_not_single :
  ∃ p, run (c_ast.FileAST [Samples.int_a_2_3]) "foo.h" = Ok p
       ∧ decl_stack p = [[Array (Array (IdentifierType "a" "int") ["2"; "3"]) []]]
       ∧ decl_stack p ≠ [[Array (IdentifierType "a" "int") ["2"; "3"]]].
Proof.
  eexists. split; [vm_compute; reflexivity|]. split; [reflexivity|]. discriminate.
Qed.

(** ** Function declarators *)

Lemma list_all_intro {A} (P : A → Prop) (l : list A) :
  (∀ a, P a) → c_ast.list_all A P l.
Proof. intros H. induction l; by constructor. Qed.

Lemma option_all_intro {A} (P : A → Prop) (o : option A) :
  (∀ a, P a) → c_ast.option_all A P o.
Proof. intros H. destruct o; by constructor. Qed.

(** The visits of the children leave the ancestor stack and the depth of
    [decl_stack] as they found them. *)
Lemma generic_visit_stacks (n : c_ast.node) s a s' :
  generic_visit visit n s = Ok (a, s') →
  visit_stack s' = visit_stack s
  ∧ length (decl_stack s') = length (decl_stack s).
Proof.
  assert (He : ∀ l, ∃ F, has_effect F (visit_each visit l)).
  { intros l. eexists. apply has_effect_visit_each, list_all_intro.
    apply has_effect_dispatch. }
  assert (Ho : ∀ o, ∃ F, has_effect F (visit_opt visit o)).
  { intros o. eexists. apply has_effect_visit_opt, option_all_intro.
    apply has_effect_dispatch. }
  assert (Hv : ∀ c, ∃ F, has_effect F (visit c)).
  { intros c. eexists. apply has_effect_visit. }
  assert (Hseq : ∀ m k : M unit,
            (∃ F, has_effect F m) → (∃ F, has_effect F k) →
            ∃ F, has_effect F (m ;; k)).
  { intros m k [F HF] [G HG]. eexists.
    apply (has_effect_bind F G); [done|]. by intros _. }
  assert (H : ∃ F, has_effect F (generic_visit visit n)).
  { destruct n; simpl; eauto; try (eexists; apply quiet_ret).
    - destruct decls; [eauto|]. eexists; apply quiet_ret.
    - destruct decls; [eauto|]. eexists; apply quiet_ret. }
  destruct H as [F HF]. intros Hg.
  by destruct (HF _ _ _ Hg) as (? & _ & ?).
Qed.

Lemma collect_visit_stack (n : c_ast.node) s decls s' :
  collect (generic_visit visit n) s = Ok (decls, s') →
  visit_stack s' = visit_stack s.
Proof.
  unfold collect. intros H.
  apply bind_Ok in H as ([] & s0 & [= <-] & H).
  apply bind_Ok in H as ([] & s1 & Hg & H).
  destruct (pop_last (decl_stack s1)) as [[d ds]|]; [|done].
  injection H as _ <-. by apply generic_visit_stacks in Hg as [? _].
Qed.

(** [visit_FuncDecl] from the outcome of [collect]: [g] and [p] are the
    grandparent and the parent of the node, [top] is the top-level list,
    [cur] the list being collected around the node. *)
Lemma visit_FuncDecl_eval args ty s anc g p s1 decls last rt fname args'
    top mid cur :
  let node := c_ast.FuncDecl args ty in
  let name := path_name_of (omap path_component (anc ++ [g])) (Some "ft") in
  visit_stack s = anc ++ [g; p] →
  collect (generic_visit visit node)
    (set_visit_stack (visit_stack s ++ [node]) s) = Ok (decls, s1) →
  index_back decls 1 = Ok last →
  get_type_name last = Ok rt →
  get_name last = Ok fname →
  elide_void (removelast decls) = Ok args' →
  decl_stack s1 = top :: mid ++ [cur] →
  visit node s =
    Ok (tt, mkAutoPxd (hdrname s1)
              (if c_ast.is_PtrDecl p && negb (c_ast.is_Typedef g)
               then (top ++ [FuncDecl_alias rt name args']) :: mid ++ [cur ++ [Str name]]
               else top :: mid ++ [cur ++ [Function rt fname args']])
              (visit_stack s) (stdint_declarations s1) (dimension_stack s1)
              (constants s1)).
Proof.
  intros node name Hvs Hc Hlast Hrt Hfn Hargs Hds.
  pose proof (collect_visit_stack _ _ _ _ Hc) as Hvs1. simpl in Hvs1.
  assert (Hvs1' : visit_stack s1 = anc ++ [g; p; node]).
  { rewrite Hvs1, Hvs, <- app_assoc. done. }
  assert (Hpath : path_names s1 = omap path_component (anc ++ [g])).
  { unfold path_names. rewrite Hvs1'.
    change [g; p; node] with ([g] ++ [p; node]).
    by rewrite app_assoc, drop_last2_snoc. }
  assert (Hptr : child_of c_ast.is_PtrDecl 2 s1 = Ok (c_ast.is_PtrDecl p, s1)).
  { unfold child_of. erewrite bind_eval; [reflexivity|].
    rewrite Hvs1'. change [g; p; node] with ([g] ++ [p; node]).
    by rewrite app_assoc, index_back_snoc2. }
  assert (Htd : child_of c_ast.is_Typedef 3 s1 = Ok (c_ast.is_Typedef g, s1)).
  { unfold child_of. erewrite bind_eval; [reflexivity|].
    by rewrite Hvs1', index_back_snoc3. }
  assert (Hstart :
            visit_FuncDecl (generic_visit visit node)
              (set_visit_stack (visit_stack s ++ [node]) s) =
            (ptr <- child_of c_ast.is_PtrDecl 2 ;;
             typedef <- and_child_of ptr c_ast.is_Typedef 3 ;;
             if ptr && negb typedef then
               name <- path_name (Some "ft") ;;
               append_top (Type_ (Ptr (Function rt (Some name) args'))) ;;
               append (Str name)
             else append (Function rt fname args')) s1).
  { unfold visit_FuncDecl.
    erewrite bind_eval by exact Hc.
    rewrite Hlast. erewrite bind_eval by reflexivity.
    rewrite Hrt. erewrite bind_eval by reflexivity.
    rewrite Hfn. erewrite bind_eval by reflexivity.
    rewrite Hargs. erewrite bind_eval by reflexivity. reflexivity. }
  erewrite bind_eval in Hstart by exact Hptr.
  destruct (c_ast.is_PtrDecl p) eqn:Hp; simpl in Hstart.
  - erewrite bind_eval in Hstart by exact Htd.
    destruct (c_ast.is_Typedef g) eqn:Hg; simpl in Hstart.
    + erewrite visit_eval; cycle 1.
      { simpl. rewrite Hstart. apply (append_eval _ _ (top :: mid) cur). exact Hds. }
      reflexivity.
    + erewrite visit_eval; cycle 1.
      { simpl. rewrite Hstart.
        erewrite bind_eval by reflexivity.
        erewrite bind_eval by (by apply append_top_eval).
        eapply (append_eval _ _ (_ :: mid) cur). reflexivity. }
      simpl. by rewrite Hpath.
  - erewrite bind_eval in Hstart by reflexivity. simpl in Hstart.
    erewrite visit_eval; cycle 1.
    { simpl. rewrite Hstart. apply (append_eval _ _ (top :: mid) cur). exact Hds. }
    reflexivity.
Qed.

(** C4. A [FuncDecl] below a [PtrDecl] whose own parent is not a [Typedef]:
    once its children have resolved to a return declarator and arguments,
    the visit adds to the top-level list the alias of a pointer to the
    function, named by the names of the ancestors above the [PtrDecl] joined
    by underscores between a leading underscore and the suffix [_ft], and
    leaves that name, as a plain string, in the list being collected. *)
Theorem function_pointer_alias (args : option c_ast.node) (ty : c_ast.node)
    (s s1 : AutoPxd) (anc : list c_ast.node) (g p : c_ast.node)
    (decls : list pyobj) (last : pyobj) (rt : string) (fname : option string)
    (args' top : list pyobj) (mid : list (list pyobj)) (cur : list pyobj) :
  let node := c_ast.FuncDecl args ty in
  let name := "_" +:+ join "_" (omap path_component (anc ++ [g])) +:+ "_ft" in
  visit_stack s = anc ++ [g; p] →
  c_ast.is_PtrDecl p = true →
  c_ast.is_Typedef g = false →
  collect (generic_visit visit node)
    (set_visit_stack (visit_stack s ++ [node]) s) = Ok (decls, s1) →
  index_back decls 1 = Ok last →
  get_type_name last = Ok rt →
  get_name last = Ok fname →
  elide_void (removelast decls) = Ok args' →
  decl_stack s1 = top :: mid ++ [cur] →
  ∃ s2, visit node s = Ok (tt, s2)
        ∧ decl_stack s2 =
            (top ++ [Type_ (Ptr (Function rt (Some name) args'))])
              :: mid ++ [cur ++ [Str name]]
        ∧ visit_stack s2 = visit_stack s.
Proof.
  intros node name Hvs Hp Hg Hc Hlast Hrt Hfn Hargs Hds.
  eexists. split.
  - eapply visit_FuncDecl_eval; eassumption.
  - simpl. by rewrite Hp, Hg.
Qed.

Lemma function_pointer_alias_witness :
  let s :=
    mkAutoPxd "foo.h" [[]; []; []; []; []]
      [c_ast.FileAST [Samples.struct_bar]; Samples.struct_bar;
       c_ast.Struct (Some "bar") (Some [Samples.cb_Decl]); Samples.cb_Decl;
       c_ast.PtrDecl Samples.cb_FuncDecl] [] [] ∅ in
  ∃ s2, visit Samples.cb_FuncDecl s = Ok (tt, s2)
        ∧ decl_stack s2 =
            [[Type_ (Ptr (Function "int" (Some "_bar_cb_ft")
                            [IdentifierType "" "uint32_t"]))];
             []; []; []; [Str "_bar_cb_ft"]]
        ∧ visit_stack s2 = visit_stack s.
Proof.
  intros s.
  refine (function_pointer_alias _ _ s
            (mkAutoPxd "foo.h" [[]; []; []; []; []]
               (visit_stack s ++ [Samples.cb_FuncDecl]) ["uint32_t"] [] ∅)
            [c_ast.FileAST [Samples.struct_bar]; Samples.struct_bar;
             c_ast.Struct (Some "bar") (Some [Samples.cb_Decl])]
            Samples.cb_Decl (c_ast.PtrDecl Samples.cb_FuncDecl)
            [IdentifierType "" "uint32_t"; IdentifierType "cb" "int"]
            (IdentifierType "cb" "int") "int" (Some "cb")
            [IdentifierType "" "uint32_t"] [] [[]; []; []] []
            _ _ _ _ _ _ _ _ _);
    vm_compute; reflexivity.
Defined.

(** The field of [struct bar] refers to the alias by its name. *)
Example struct_bar_run :
  ∃ p, run (c_ast.FileAST [Samples.struct_bar]) "foo.h" = Ok p
       ∧ decl_stack p =
           [[Type_ (Ptr (Function "int" (Some "_bar_cb_ft")
                           [IdentifierType "" "uint32_t"]));
             Block "bar" [IdentifierType "cb" "_bar_cb_ft"] "struct" "cdef"]].
Proof. eexists. split; [vm_compute; reflexivity|reflexivity]. Qed.

(** C5. A [FuncDecl] whose children resolve to one argument that is an
    [IdentifierType] of type [void], before the return declarator, builds
    its [Function] without arguments, in the alias of a pointer to a
    function and in the plain case alike. *)
Theorem void_parameter_elided (args : option c_ast.node) (ty : c_ast.node)
    (s s1 : AutoPxd) (anc : list c_ast.node) (g p : c_ast.node)
    (pname : string) (last : pyobj) (rt : string) (fname : option string)
    (top : list pyobj) (mid : list (list pyobj)) (cur : list pyobj) :
  let node := c_ast.FuncDecl args ty in
  let name := "_" +:+ join "_" (omap path_component (anc ++ [g])) +:+ "_ft" in
  visit_stack s = anc ++ [g; p] →
  collect (generic_visit visit node)
    (set_visit_stack (visit_stack s ++ [node]) s)
  = Ok ([IdentifierType pname "void"; last], s1) →
  get_type_name last = Ok rt →
  get_name last = Ok fname →
  decl_stack s1 = top :: mid ++ [cur] →
  ∃ s2, visit node s = Ok (tt, s2)
        ∧ decl_stack s2 =
            if c_ast.is_PtrDecl p && negb (c_ast.is_Typedef g)
            then (top ++ [Type_ (Ptr (Function rt (Some name) []))])
                   :: mid ++ [cur ++ [Str name]]
            else top :: mid ++ [cur ++ [Function rt fname []]].
Proof.
  intros node name Hvs Hc Hrt Hfn Hds.
  eexists. split.
  - eapply visit_FuncDecl_eval; try eassumption; reflexivity.
  - reflexivity.
Qed.

Lemma void_parameter_elided_witness :
  let s :=
    mkAutoPxd "foo.h" [[]; []]
      [c_ast.FileAST [Samples.void_f_void]; Samples.void_f_void] [] [] ∅ in
  ∃ s2, visit (c_ast.FuncDecl (Some Samples.void_params)
                 (c_ast.TypeDecl (Some "f") (c_ast.IdentifierType ["void"]))) s
        = Ok (tt, s2)
        ∧ decl_stack s2 = [[]; [Function "void" (Some "f") []]].
Proof.
  intros s.
  refine (void_parameter_elided (Some Samples.void_params) _ s
            (mkAutoPxd "foo.h" [[]; []]
               (visit_stack s
                ++ [c_ast.FuncDecl (Some Samples.void_params)
                      (c_ast.TypeDecl (Some "f") (c_ast.IdentifierType ["void"]))])
               [] [] ∅)
            [] (c_ast.FileAST [Samples.void_f_void]) Samples.void_f_void
            "" (IdentifierType "f" "void") "void" (Some "f") [] [] []
            _ _ _ _ _);
    vm_compute; reflexivity.
Defined.

(** [void f(void);] resolves to a function without arguments. *)
Example void_f_void_run :
  ∃ p, run (c_ast.FileAST [Samples.void_f_void]) "foo.h" = Ok p
       ∧ decl_stack p = [[Function "void" (Some "f") []]].
Proof. eexists. split; [vm_compute; reflexivity|reflexivity]. Qed.

(** ** Enumerations *)

Lemma set_constants_id s : set_constants (constants s) s = s.
Proof. by destruct s. Qed.

(** The loop over the enumerators writes to [constants] only. *)
Lemma Enum_values_constants es : ∀ value s s1,
  Enum_values es value s = Ok (tt, s1) → ∃ c, s1 = set_constants c s.
Proof.
  induction es as [|[name v] es IH]; intros value s s1 H; simpl in H.
  - injection H as <-. exists (constants s). by rewrite set_constants_id.
  - apply bind_Ok in H as (value' & s0 & [_ ->]%lift_Ok & H).
    apply bind_Ok in H as ([] & s0 & [= <-] & H).
    apply IH in H as [c ->]. by exists c.
Qed.

Lemma Enum_values_lookup_other es k : ∀ value s s1,
  Enum_values es value s = Ok (tt, s1) → k ∉ es.*1 →
  constants s1 !! k = constants s !! k.
Proof.
  induction es as [|[name v] es IH]; intros value s s1 H Hk; simpl in H.
  - by injection H as <-.
  - apply bind_Ok in H as (value' & s0 & [_ ->]%lift_Ok & H).
    apply bind_Ok in H as ([] & s0 & [= <-] & H).
    simpl in Hk. apply not_elem_of_cons in Hk as [Hne Hk].
    rewrite (IH _ _ _ H Hk). simpl. by rewrite lookup_insert_ne.
Qed.

(** The value the loop gives an enumerator: the literal of a constant, one
    more than the running value otherwise. *)
Lemma Enum_values_head name v es value s s1 :
  Enum_values ((name, v) :: es) value s = Ok (tt, s1) → name ∉ es.*1 →
  match v ≫= c_ast.value_attr with
  | Some text => ∃ z, int text = Ok z ∧ constants s1 !! name = Some z
  | None => constants s1 !! name = Some (value + 1)%Z
  end.
Proof.
  intros H Hk. simpl in H.
  apply bind_Ok in H as (value' & s0 & [Hv ->]%lift_Ok & H).
  apply bind_Ok in H as ([] & s0 & [= <-] & H).
  rewrite (Enum_values_lookup_other _ _ _ _ _ H Hk). simpl.
  rewrite lookup_insert_eq.
  destruct (v ≫= c_ast.value_attr); [by exists value'|]. by injection Hv as <-.
Qed.

(** C1, on the code. After [enum { A, B = 5, C };] the table maps [A] to 1,
    not to 0: the running value starts at 0 and is incremented before it is
    stored.  [B] is 5 and [C] is 6, and [int arr[C];] resolves to the
    dimension 6. *)
Theorem enum_ABC_constants :
  ∃ p, run (c_ast.FileAST [Samples.enum_ABC; Samples.int_arr_C]) "foo.h" = Ok p
       ∧ constants p !! "A" = Some 1%Z
       ∧ constants p !! "B" = Some 5%Z
       ∧ constants p !! "C" = Some 6%Z
       ∧ decl_stack p =
           [[Enum None ["A"; "B"; "C"] "cdef";
             Array (IdentifierType "arr" "int") ["6"]]].
Proof.
  eexists. split; [vm_compute; reflexivity|].
  repeat split; vm_compute; reflexivity.
Qed.

(** The first enumerator of any enumeration gets 1 when it has no value. *)
Lemma Enum_values_first name es s s1 :
  Enum_values ((name, None) :: es) 0 s = Ok (tt, s1) → name ∉ es.*1 →
  constants s1 !! name = Some 1%Z.
Proof. intros H Hk. exact (Enum_values_head _ _ _ _ _ _ H Hk). Qed.

(** [visit_Enum] on an enumeration without name whose parent is not a
    [TypeDecl]. *)
Lemma visit_Enum_eval e es s s1 anc p top rest :
  let node := c_ast.Enum None (Some (e :: es)) in
  visit_stack s = anc ++ [p] →
  c_ast.is_TypeDecl p = false →
  Enum_values (e :: es) 0 (set_visit_stack (visit_stack s ++ [node]) s)
  = Ok (tt, s1) →
  decl_stack s = top :: rest →
  visit node s =
    Ok (tt, mkAutoPxd (hdrname s)
              ((top ++ [Enum None ((e :: es).*1) "cdef"]) :: rest)
              (visit_stack s) (stdint_declarations s) (dimension_stack s)
              (constants s1)).
Proof.
  intros node Hvs Hp Hev Hds.
  destruct (Enum_values_constants _ _ _ _ Hev) as [c ->].
  set (s0 := set_constants c (set_visit_stack (visit_stack s ++ [node]) s)) in *.
  assert (Htd : child_of c_ast.is_TypeDecl 2 s0 = Ok (false, s0)).
  { unfold child_of. erewrite bind_eval; cycle 1.
    { unfold lift. simpl. rewrite Hvs, <- app_assoc. simpl.
      rewrite index_back_snoc2. reflexivity. }
    unfold ret. by rewrite Hp. }
  erewrite visit_eval; cycle 1.
  { simpl dispatch. unfold visit_Enum.
    erewrite bind_eval by exact Hev.
    erewrite bind_eval by exact Htd.
    unfold and_child_of, bind, ret. simpl.
    erewrite append_top_eval by exact Hds. reflexivity. }
  reflexivity.
Qed.

(** C2, as the code has it. An enumeration without name, with enumerators,
    whose parent is not a [TypeDecl] (a declaration of its own, hence no
    typedef target): the top-level list gets a [cdef] block without name,
    which renders under the header [cdef enum:], and nothing is left in the
    list being collected. *)
Theorem anonymous_enum_block (e : string * option c_ast.node)
    (es : list (string * option c_ast.node)) (s s1 : AutoPxd)
    (anc : list c_ast.node) (p : c_ast.node)
    (top : list pyobj) (rest : list (list pyobj)) :
  let node := c_ast.Enum None (Some (e :: es)) in
  let block := Enum None ((e :: es).*1) "cdef" in
  visit_stack s = anc ++ [p] →
  c_ast.is_TypeDecl p = false →
  Enum_values (e :: es) 0 (set_visit_stack (visit_stack s ++ [node]) s)
  = Ok (tt, s1) →
  decl_stack s = top :: rest →
  ∃ s2, visit node s = Ok (tt, s2)
        ∧ decl_stack s2 = (top ++ [block]) :: rest
        ∧ lines block = Ok ("cdef enum:" :: (String.append indent <$> (e :: es).*1)).
Proof.
  intros node block Hvs Hp Hev Hds. eexists. split.
  - by eapply visit_Enum_eval.
  - done.
Qed.

Lemma anonymous_enum_block_witness :
  let s := mkAutoPxd "foo.h" [[]; []]
             [c_ast.FileAST [Samples.enum_AB]; Samples.enum_AB] [] [] ∅ in
  ∃ s2, visit (c_ast.Enum None (Some [("A", None); ("B", None)])) s = Ok (tt, s2)
        ∧ decl_stack s2 = [[Enum None ["A"; "B"] "cdef"]; []]
        ∧ lines (Enum None ["A"; "B"] "cdef")
          = Ok ["cdef enum:"; "    A"; "    B"].
Proof.
  intros s.
  refine (anonymous_enum_block ("A", None) [("B", None)] s
            (mkAutoPxd "foo.h" [[]; []]
               (visit_stack s ++ [c_ast.Enum None (Some [("A", None); ("B", None)])])
               [] [] {[ "A" := 1%Z; "B" := 2%Z ]})
            [c_ast.FileAST [Samples.enum_AB]] Samples.enum_AB [] [[]]
            _ _ _ _);
    vm_compute; reflexivity.
Defined.

(** C2, as stated, fails on [enum { A, B };] at top level: the path name
    tagged [e] is [__e] there, and the block that is emitted has no name. *)
Lemma anonymous_enum_not_named :
  let at_enum :=
    mkAutoPxd "foo.h" [[]; []]
      [c_ast.FileAST [Samples.enum_AB]; Samples.enum_AB;
       c_ast.Enum None (Some [("A", None); ("B", None)])] [] [] ∅ in
  ∃ p, run (c_ast.FileAST [Samples.enum_AB]) "foo.h" = Ok p
       ∧ path_name (Some "e") at_enum = Ok ("__e", at_enum)
       ∧ decl_stack p = [[Enum None ["A"; "B"] "cdef"]]
       ∧ decl_stack p ≠ [[Enum (Some "__e") ["A"; "B"] "cdef"]].
Proof.
  intros at_enum. eexists. split; [vm_compute; reflexivity|].
  split; [reflexivity|]. split; [reflexivity|]. discriminate.
Qed.

(** ** Typedefs *)

(** C3. [typedef struct { int x; } foo_t;] puts one entry in the top-level
    list: the block of the structure, under the name [foo_t] of the typedef
    and with the statement [ctypedef]; neither the [TypeDecl] nor the
    [Typedef] adds an alias, and the text has the one block. *)
Theorem typedef_struct_one_block :
  ∃ p, run (c_ast.FileAST [Samples.typedef_struct_foo_t]) "foo.h" = Ok p
       ∧ decl_stack p =
           [[Block "foo_t" [IdentifierType "x" "int"] "struct" "ctypedef"]]
       ∧ translate (c_ast.FileAST [Samples.typedef_struct_foo_t]) "foo.h"
         = Ok (foo_h ["    ctypedef struct foo_t:"; "        int x"; ""]).
Proof.
  eexists. split; [vm_compute; reflexivity|].
  split; [reflexivity|vm_compute; reflexivity].
Qed.

(** An anonymous structure or union with members that is the target of a
    typedef: the block goes to the top level under the path name without
    tag, with the statement [ctypedef], and neither the [TypeDecl] nor the
    [Typedef] adds anything. *)
Lemma visit_typedef_struct tname declname members s s1 fields top rest :
  let struct := c_ast.Struct None (Some members) in
  let tdecl := c_ast.TypeDecl declname struct in
  let node := c_ast.Typedef tname tdecl in
  let name := join "_" (omap path_component (visit_stack s ++ [node])) in
  members ≠ [] →
  collect (generic_visit visit struct)
    (mkAutoPxd (hdrname s) ((decl_stack s ++ [[]]) ++ [[]])
       (((visit_stack s ++ [node]) ++ [tdecl]) ++ [struct])
       (stdint_declarations s) (dimension_stack s) (constants s))
  = Ok (fields, s1) →
  decl_stack s1 = (top :: rest) ++ [[]; []] →
  visit node s =
    Ok (tt, mkAutoPxd (hdrname s1)
              ((top ++ [Block name fields "struct" "ctypedef"]) :: rest)
              (visit_stack s) (stdint_declarations s1) (dimension_stack s1)
              (constants s1)).
Proof.
  intros struct tdecl node name Hm Hc Hds.
  pose proof (collect_visit_stack _ _ _ _ Hc) as Hvs1. simpl in Hvs1.
  set (s0 := mkAutoPxd (hdrname s) ((decl_stack s ++ [[]]) ++ [[]])
               (((visit_stack s ++ [node]) ++ [tdecl]) ++ [struct])
               (stdint_declarations s) (dimension_stack s) (constants s)) in *.
  assert (Htd : child_of c_ast.is_TypeDecl 2 s0 = Ok (true, s0)).
  { unfold child_of. erewrite bind_eval; cycle 1.
    { unfold lift. simpl. rewrite <- (app_assoc _ [tdecl] [struct]). simpl.
      rewrite index_back_snoc2. reflexivity. }
    reflexivity. }
  assert (Htf : child_of c_ast.is_Typedef 3 s0 = Ok (true, s0)).
  { unfold child_of. erewrite bind_eval; cycle 1.
    { unfold lift. simpl. rewrite <- (app_assoc _ [tdecl] [struct]).
      rewrite <- (app_assoc _ [node]). simpl.
      rewrite index_back_snoc3. reflexivity. }
    reflexivity. }
  assert (Hpath : path_names s0 = omap path_component (visit_stack s ++ [node])).
  { unfold path_names. simpl. rewrite <- (app_assoc _ [tdecl] [struct]). simpl.
    by rewrite drop_last2_snoc. }
  assert (Hstruct : visit struct
            (mkAutoPxd (hdrname s) ((decl_stack s ++ [[]]) ++ [[]])
               ((visit_stack s ++ [node]) ++ [tdecl])
               (stdint_declarations s) (dimension_stack s) (constants s)) =
          Ok (tt, mkAutoPxd (hdrname s1)
                    (((top ++ [Block name fields "struct" "ctypedef"]) :: rest)
                     ++ [[]; []])
                    ((visit_stack s ++ [node]) ++ [tdecl])
                    (stdint_declarations s1) (dimension_stack s1) (constants s1))).
  { erewrite visit_eval; cycle 1.
    { change (dispatch struct (generic_visit visit struct))
        with (visit_Block None (Some members) "struct" (generic_visit visit struct)).
      unfold visit_Block.
      erewrite bind_eval by exact Htd.
      unfold and_child_of. erewrite bind_eval by exact Htf.
      simpl truthy. cbv iota.
      erewrite (bind_eval (path_name None)) by reflexivity.
      assert (no_decls (Some members) = false) as -> by (by destruct members).
      erewrite bind_eval by exact Hc. simpl.
      apply append_top_eval. rewrite Hds. reflexivity. }
    simpl. by rewrite Hpath. }
  erewrite visit_eval; cycle 1.
  { change (dispatch node (generic_visit visit node))
      with (visit_Typedef (visit tdecl)).
    unfold visit_Typedef.
    erewrite bind_eval.
    2:{ eapply (collect_eval _ _ _ ((top ++ _) :: rest) []).
        - erewrite visit_eval; cycle 1.
          { change (dispatch tdecl (generic_visit visit tdecl))
              with (visit_named declname (visit struct)).
            unfold visit_named.
            erewrite bind_eval.
            2:{ eapply (collect_eval _ _ _ (((top ++ _) :: rest) ++ [[]]) []).
                - exact Hstruct.
                - simpl. by rewrite <- app_assoc. }
            reflexivity. }
          reflexivity.
        - reflexivity. }
    reflexivity. }
  reflexivity.
Qed.

Example typedef_struct_foo_t_visit :
  visit Samples.typedef_struct_foo_t
    (mkAutoPxd "foo.h" [[]] [c_ast.FileAST [Samples.typedef_struct_foo_t]] [] [] ∅)
  = Ok (tt, mkAutoPxd "foo.h"
              [[Block "foo_t" [IdentifierType "x" "int"] "struct" "ctypedef"]]
              [c_ast.FileAST [Samples.typedef_struct_foo_t]] [] [] ∅).
Proof.
  apply (visit_typedef_struct (Some "foo_t") (Some "foo_t") [Samples.int_x]
           (mkAutoPxd "foo.h" [[]]
              [c_ast.FileAST [Samples.typedef_struct_foo_t]] [] [] ∅)
           (mkAutoPxd "foo.h" [[]; []; []]
              [c_ast.FileAST [Samples.typedef_struct_foo_t];
               Samples.typedef_struct_foo_t;
               c_ast.TypeDecl (Some "foo_t") (c_ast.Struct None (Some [Samples.int_x]));
               c_ast.Struct None (Some [Samples.int_x])] [] [] ∅)
           [IdentifierType "x" "int"] [] []);
    [done|vm_compute; reflexivity|reflexivity].
Qed.

(** C6, on the code. [typedef long long ll;] resolves to the alias [ll] of
    the type [long long], and [visit_Typedef] drops it: it compares the
    first two words of the rendered declaration, [long] and [long], not the
    type with the alias. *)
Theorem typedef_long_long_dropped :
  let at_typedef :=
    mkAutoPxd "foo.h" [[]]
      [c_ast.FileAST [Samples.typedef_ll]; Samples.typedef_ll] [] [] ∅ in
  collect (generic_visit visit Samples.typedef_ll) at_typedef
  = Ok ([IdentifierType "ll" "long long"], at_typedef)
  ∧ str (IdentifierType "ll" "long long") = Ok "long long ll"
  ∧ split "long long ll" = ["long"; "long"; "ll"]
  ∧ ∃ p, run (c_ast.FileAST [Samples.typedef_ll]) "foo.h" = Ok p
         ∧ decl_stack p = [[]].
Proof.
  intros at_typedef. split; [vm_compute; reflexivity|].
  split; [reflexivity|]. split; [reflexivity|].
  eexists. split; [vm_compute; reflexivity|reflexivity].
Qed.

(** A typedef whose alias differs from the first word of its type is kept. *)
Example typedef_unsigned_kept :
  ∃ p, run (c_ast.FileAST
              [c_ast.Typedef (Some "u32")
                 (c_ast.TypeDecl (Some "u32") (c_ast.IdentifierType ["unsigned"; "int"]))])
         "foo.h" = Ok p
       ∧ decl_stack p = [[Type_ (IdentifierType "u32" "unsigned int")]].
Proof. eexists. split; [vm_compute; reflexivity|reflexivity]. Qed.

(** A typedef of a structure to its own tag is dropped. *)
Example typedef_same_name_dropped :
  ∃ p, run (c_ast.FileAST
              [c_ast.Typedef (Some "foo")
                 (c_ast.TypeDecl (Some "foo") (c_ast.Struct (Some "foo") None))])
         "foo.h" = Ok p
       ∧ decl_stack p = [[]].
Proof. eexists. split; [vm_compute; reflexivity|reflexivity]. Qed.

(** ** The import line *)

Lemma mem_elem_of (x : string) (l : list string) : mem x l = true ↔ x ∈ l.
Proof.
  unfold mem. rewrite existsb_exists. split.
  - intros (y & Hy & ->%String.eqb_eq). by apply list_elem_of_In.
  - intros H. exists x. split; [by apply list_elem_of_In|apply String.eqb_refl].
Qed.

Lemma note_stdint_spec (seen : list string) (x : string) :
  note_stdint seen x =
    if decide (x ∈ STDINT_DECLARATIONS ∧ x ∉ seen) then seen ++ [x] else seen.
Proof.
  unfold note_stdint. destruct (mem x seen) eqn:Hm.
  - apply mem_elem_of in Hm. rewrite andb_false_r.
    rewrite decide_False; [reflexivity|]. intros [_ ?]. contradiction.
  - assert (x ∉ seen) by (rewrite <- mem_elem_of; congruence).
    rewrite andb_true_r. case_bool_decide.
    + rewrite decide_True; [reflexivity|]. split; assumption.
    + rewrite decide_False; [reflexivity|]. intros [? _]. contradiction.
Qed.

Lemma elem_of_first_seen (x : string) (l : list string) : x ∈ first_seen l ↔ x ∈ l.
Proof.
  induction l as [|y l IH]; simpl; [done|].
  rewrite !elem_of_cons, list_elem_of_filter, IH.
  destruct (decide (x = y)); tauto.
Qed.

Lemma NoDup_first_seen (l : list string) : NoDup (first_seen l).
Proof.
  induction l as [|y l IH]; simpl; constructor.
  - rewrite list_elem_of_filter. by intros [? _].
  - by apply NoDup_filter.
Qed.

(** The names [visit_IdentifierType] has noted after a sequence of names:
    those it had, then the new fixed-width names in the order of their first
    occurrence. *)
Lemma noted_first_seen (names : list string) : ∀ seen,
  noted names seen =
    seen ++ filter (λ x, x ∉ seen)
              (first_seen (filter (λ x, x ∈ STDINT_DECLARATIONS) names)).
Proof.
  unfold noted.
  induction names as [|x names IH]; intros seen; simpl.
  - by rewrite app_nil_r.
  - rewrite IH, note_stdint_spec, filter_cons.
    destruct (decide (x ∈ STDINT_DECLARATIONS)) as [Hx|Hx].
    + destruct (decide (x ∈ seen)) as [Hs|Hs].
      * rewrite decide_False by (intros [_ ?]; contradiction). simpl.
        rewrite filter_cons_False by (intros ?; contradiction).
        f_equal. rewrite list_filter_filter_l; [reflexivity|].
        intros y Hy ->. contradiction.
      * rewrite decide_True by (split; assumption). simpl.
        rewrite filter_cons_True by assumption.
        rewrite <- app_assoc. simpl. do 2 f_equal.
        rewrite list_filter_filter. apply list_filter_iff.
        intros y. rewrite elem_of_app, list_elem_of_singleton. tauto.
    + rewrite decide_False by (intros [? _]; contradiction). reflexivity.
Qed.

Lemma noted_nil (names : list string) :
  noted names [] = first_seen (filter (λ x, x ∈ STDINT_DECLARATIONS) names).
Proof.
  rewrite noted_first_seen. simpl.
  induction (first_seen _) as [|y l IH]; [done|].
  rewrite filter_cons_True by apply not_elem_of_nil. by rewrite IH.
Qed.

Lemma top_level_lines_no_cimport (decls : list pyobj) : ∀ body,
  top_level_lines decls = Ok body → Forall (λ l, is_cimport l = false) body.
Proof.
  induction decls as [|d decls IH]; intros body; simpl.
  - by intros [= <-].
  - destruct (lines d) as [dl|]; [|done].
    destruct (top_level_lines decls) as [rest|]; [|done].
    intros [= <-]. rewrite Forall_app. split.
    + apply Forall_fmap, Forall_true. done.
    + constructor; [done|]. by apply IH.
Qed.

Lemma AutoPxd_lines_no_cimport (p : AutoPxd) (ls : list string) :
  AutoPxd_lines p = Ok ls → Forall (λ l, is_cimport l = false) ls.
Proof.
  unfold AutoPxd_lines. destruct (decl_stack p) as [|top ?]; [done|].
  destruct (top_level_lines top) as [body|] eqn:E; [|done].
  intros [= <-]. repeat constructor. by eapply top_level_lines_no_cimport.
Qed.

(** C8. A translation that succeeds returns the import line followed by
    the lines of the declarations.  The import line is there exactly when
    the walk met a name of [STDINT_DECLARATIONS]; it lists the names met in
    the order of their first occurrence, each once, however often it
    occurs; no line of the declarations is an import line. *)
Theorem translate_cimport (ast : c_ast.node) (hdrname : string) (out : string) :
  translate ast hdrname = Ok out →
  let met := filter (λ x, x ∈ STDINT_DECLARATIONS) (idnames ast) in
  let listed := first_seen met in
  ∃ ls,
    out = cimport listed +:+ join nl ls
    ∧ (cimport listed = "" ↔ met = [])
    ∧ (met ≠ [] →
       cimport listed = "from libc.stdint cimport " +:+ join ", " listed +:+ nl +:+ nl)
    ∧ NoDup listed
    ∧ (∀ x, x ∈ listed ↔ x ∈ idnames ast ∧ x ∈ STDINT_DECLARATIONS)
    ∧ Forall (λ l, is_cimport l = false) ls.
Proof.
  intros H met listed. unfold translate, translate_from in H.
  destruct (visit ast (AutoPxd_init hdrname)) as [[[] p]|] eqn:Hv; [|done].
  unfold pxd_string in H.
  destruct (AutoPxd_lines p) as [ls|] eqn:Hl; [|done].
  injection H as <-. exists ls.
  apply visit_stdint_declarations in Hv. simpl in Hv.
  rewrite noted_nil in Hv. fold met in Hv. fold listed in Hv. rewrite Hv.
  split; [done|].
  assert (Hnil : listed = [] ↔ met = []).
  { unfold listed. by destruct met. }
  split; [|split; [|split; [|split]]].
  - destruct listed eqn:E; [tauto|].
    split; [done|]. intros Hm. apply Hnil in Hm. done.
  - intros Hm. destruct listed; [tauto|done].
  - apply NoDup_first_seen.
  - intros x. unfold listed, met.
    rewrite elem_of_first_seen, list_elem_of_filter. tauto.
  - by eapply AutoPxd_lines_no_cimport.
Qed.

Example stdint_user_listed :
  first_seen (filter (λ x, x ∈ STDINT_DECLARATIONS)
                (idnames (c_ast.FileAST [Samples.stdint_user])))
  = ["uint32_t"; "int64_t"].
Proof. vm_compute. reflexivity. Qed.

Lemma translate_cimport_witness :
  translate (c_ast.FileAST [Samples.stdint_user]) "foo.h" = Ok stdint_user_text
  ∧ let met := filter (λ x, x ∈ STDINT_DECLARATIONS)
                 (idnames (c_ast.FileAST [Samples.stdint_user])) in
    let listed := first_seen met in
    ∃ ls,
      stdint_user_text = cimport listed +:+ join nl ls
      ∧ (cimport listed = "" ↔ met = [])
      ∧ (met ≠ [] →
         cimport listed = "from libc.stdint cimport " +:+ join ", " listed +:+ nl +:+ nl)
      ∧ NoDup listed
      ∧ (∀ x, x ∈ listed ↔ x ∈ idnames (c_ast.FileAST [Samples.stdint_user])
                            ∧ x ∈ STDINT_DECLARATIONS)
      ∧ Forall (λ l, is_cimport l = false) ls.
Proof.
  assert (H : translate (c_ast.FileAST [Samples.stdint_user]) "foo.h"
              = Ok stdint_user_text) by (vm_compute; reflexivity).
  split; [exact H|].
  exact (translate_cimport _ _ _ H).
Defined.

(** ** What a visit never undoes *)

Lemma Forall2_prefix_refl (ds : list (list pyobj)) : Forall2 prefix ds ds.
Proof. induction ds; constructor; [reflexivity|assumption]. Qed.

Lemma Forall2_prefix_trans (ds1 ds2 ds3 : list (list pyobj)) :
  Forall2 prefix ds1 ds2 → Forall2 prefix ds2 ds3 → Forall2 prefix ds1 ds3.
Proof.
  intros H. revert ds3. induction H as [|f1 f2 ds1 ds2 Hf H IH]; intros ds3 H3.
  - inversion H3. constructor.
  - inversion H3 as [|? f3 ? ds3' Hf3 H3']; subst. constructor.
    + by etrans.
    + by apply IH.
Qed.

Lemma grows_refl s : grows s s.
Proof.
  repeat split; [apply Forall2_prefix_refl|reflexivity|left; reflexivity].
Qed.

Lemma grows_trans s1 s2 s3 : grows s1 s2 → grows s2 s3 → grows s1 s3.
Proof.
  intros (Hd1 & Hh1 & Hc1 & Hm1) (Hd2 & Hh2 & Hc2 & Hm2). repeat split.
  - by eapply Forall2_prefix_trans.
  - congruence.
  - by etrans.
  - destruct Hm2 as [Hm2|Hm2]; [|by right].
    destruct Hm1 as [Hm1|Hm1]; [left|right]; congruence.
Qed.

Lemma keeps_bind {A B} (m : M A) (k : A → M B) :
  keeps m → (∀ a, keeps (k a)) → keeps (bind m k).
Proof.
  intros Hm Hk s b s' H. apply bind_Ok in H as (a & s1 & H1 & H2).
  eapply grows_trans; [by eapply Hm|by eapply Hk].
Qed.

Lemma keeps_ret {A} (a : A) : keeps (ret a).
Proof. intros s b s' [= _ <-]. apply grows_refl. Qed.

Lemma keeps_raise {A} e : keeps (@raise A e).
Proof. by intros s b s' [=]. Qed.

Lemma keeps_lift {A} (r : result A) : keeps (lift r).
Proof. intros s b s' [_ ->]%lift_Ok. apply grows_refl. Qed.

Lemma keeps_get {A} (f : AutoPxd → A) : keeps (get f).
Proof. intros s b s' [= _ <-]. apply grows_refl. Qed.

Lemma keeps_assert b : keeps (assert b).
Proof. destruct b; [apply keeps_ret|apply keeps_raise]. Qed.

Lemma append_last_prefix (x : pyobj) ds ds' :
  append_last x ds = Some ds' → Forall2 prefix ds ds'.
Proof.
  unfold append_last. destruct (rev ds) as [|f r] eqn:E; [done|].
  intros [= <-]. rewrite <- (rev_involutive ds), E. simpl.
  apply Forall2_app; [apply Forall2_prefix_refl|].
  constructor; [by apply prefix_app_r|constructor].
Qed.

Lemma append_first_prefix (x : pyobj) ds ds' :
  append_first x ds = Some ds' → Forall2 prefix ds ds'.
Proof.
  destruct ds as [|f r]; [done|]. intros [= <-].
  constructor; [by apply prefix_app_r|apply Forall2_prefix_refl].
Qed.

Lemma keeps_append x : keeps (append x).
Proof.
  intros s b s'. unfold append.
  destruct (append_last x (decl_stack s)) as [ds|] eqn:E; [|done].
  intros [= _ <-]. apply append_last_prefix in E.
  repeat split; [exact E|reflexivity|left; reflexivity].
Qed.

Lemma keeps_append_top x : keeps (append_top x).
Proof.
  intros s b s'. unfold append_top.
  destruct (append_first x (decl_stack s)) as [ds|] eqn:E; [|done].
  intros [= _ <-]. apply append_first_prefix in E.
  repeat split; [exact E|reflexivity|left; reflexivity].
Qed.

Lemma keeps_child_of is_type k : keeps (child_of is_type k).
Proof.
  apply keeps_bind; [|intros; apply keeps_ret].
  intros s b s' [_ ->]%lift_Ok. apply grows_refl.
Qed.

Lemma keeps_and_child_of x is_type k : keeps (and_child_of x is_type k).
Proof. destruct x; [apply keeps_child_of|apply keeps_ret]. Qed.

Lemma keeps_path_name tag : keeps (path_name tag).
Proof. apply keeps_get. Qed.

Lemma keeps_insert_constant name value :
  keeps (modify (λ s, set_constants (<[name := value]> (constants s)) s)).
Proof.
  intros s b s' [= _ <-].
  repeat split; [apply Forall2_prefix_refl| |left; reflexivity].
  simpl. rewrite dom_insert_L. apply union_subseteq_r.
Qed.

Lemma keeps_Enum_values es value : keeps (Enum_values es value).
Proof.
  revert value. induction es as [|[name v] es IH]; intros value; simpl.
  - apply keeps_ret.
  - apply keeps_bind; [apply keeps_lift|]. intros value'.
    apply keeps_bind; [apply keeps_insert_constant|]. intros _. apply IH.
Qed.

Lemma keeps_note_stdint (f : AutoPxd → list string) :
  keeps (modify (λ s, set_stdint_declarations (f s) s)).
Proof.
  intros s b s' [= _ <-].
  repeat split; [apply Forall2_prefix_refl|reflexivity|left; reflexivity].
Qed.

Create HintDb keeps discriminated.
#[local] Hint Resolve keeps_ret keeps_raise keeps_lift keeps_get keeps_assert
  keeps_append keeps_append_top keeps_child_of keeps_and_child_of
  keeps_path_name keeps_Enum_values : keeps.

(** Walks through monadic code whose every step keeps the state growing. *)
Ltac keeps_tac :=
  repeat first
    [ progress eauto with keeps
    | apply keeps_bind; [|intros ?]
    | match goal with
      | |- keeps (if ?b then _ else _) => destruct b
      | |- keeps (match ?x with _ => _ end) => destruct x
      end ].

Lemma keeps_collect (gv : M unit) : keeps gv → keeps (collect gv).
Proof.
  intros Hgv s decls s' H. unfold collect in H.
  apply bind_Ok in H as ([] & s0 & [= <-] & H).
  apply bind_Ok in H as ([] & s1 & Hg & H).
  destruct (pop_last (decl_stack s1)) as [[d ds]|] eqn:E; [|done].
  simplify_eq. apply pop_last_Some in E.
  destruct (Hgv _ _ _ Hg) as (Hd & Hh & Hc & Hm). simpl in *.
  rewrite E in Hd. apply Forall2_app_inv_l in Hd as (k1 & k2 & Hk1 & Hk2 & Hk).
  apply Forall2_length in Hk2. destruct k2 as [|f [|]]; try done.
  apply app_inj_tail in Hk as [-> _].
  repeat split; assumption.
Qed.

Lemma keeps_visit_Enum name values : keeps (visit_Enum name values).
Proof. unfold visit_Enum. keeps_tac. Qed.

Lemma keeps_visit_named name gv : keeps gv → keeps (visit_named name gv).
Proof.
  intros H. unfold visit_named.
  apply keeps_bind; [by apply keeps_collect|]. intros decls. keeps_tac.
Qed.

Lemma keeps_visit_FuncDecl gv : keeps gv → keeps (visit_FuncDecl gv).
Proof.
  intros H. unfold visit_FuncDecl.
  apply keeps_bind; [by apply keeps_collect|]. intros decls. keeps_tac.
Qed.

Lemma keeps_visit_PtrDecl gv : keeps gv → keeps (visit_PtrDecl gv).
Proof.
  intros H. unfold visit_PtrDecl.
  apply keeps_bind; [by apply keeps_collect|]. intros decls. keeps_tac.
Qed.

Lemma keeps_visit_Typedef gv : keeps gv → keeps (visit_Typedef gv).
Proof.
  intros H. unfold visit_Typedef.
  apply keeps_bind; [by apply keeps_collect|]. intros decls. keeps_tac.
Qed.

Lemma keeps_visit_Block name decls kind gv :
  keeps gv → keeps (visit_Block name decls kind gv).
Proof.
  intros H. unfold visit_Block.
  apply keeps_bind; [keeps_tac|]. intros type_decl.
  apply keeps_bind; [keeps_tac|]. intros type_def.
  apply keeps_bind; [keeps_tac|]. intros name'.
  destruct (no_decls decls); [keeps_tac|].
  apply keeps_bind; [by apply keeps_collect|]. intros fields. keeps_tac.
Qed.

Lemma keeps_visit_IdentifierType names : keeps (visit_IdentifierType names).
Proof.
  unfold visit_IdentifierType.
  apply keeps_bind; [apply (keeps_note_stdint (λ s, _))|intros; keeps_tac].
Qed.

(** [visit_ArrayDecl] leaves [dimension_stack] empty. *)
Lemma visit_ArrayDecl_dimension_stack dim gv s a s' :
  visit_ArrayDecl dim gv s = Ok (a, s') → dimension_stack s' = [].
Proof.
  unfold visit_ArrayDecl. intros H.
  apply bind_Ok in H as (d & s0 & [= <- <-] & H).
  apply bind_Ok in H as ([] & s1 & [= <-] & H).
  apply bind_Ok in H as (decls & s2 & Hc & H).
  destruct decls as [|x [|]]; try done.
  apply bind_Ok in H as (dims & s3 & [= <- <-] & H).
  apply bind_Ok in H as ([] & s4 & Ha & [= <- <-]).
  reflexivity.
Qed.

Lemma keeps_visit_ArrayDecl dim gv : keeps gv → keeps (visit_ArrayDecl dim gv).
Proof.
  intros Hgv s a s' H.
  pose proof (visit_ArrayDecl_dimension_stack _ _ _ _ _ H) as Hdim.
  unfold visit_ArrayDecl in H.
  apply bind_Ok in H as (d & s0 & [= <- <-] & H).
  apply bind_Ok in H as ([] & s1 & [= <-] & H).
  assert (Hrest : keeps (decls <- collect gv ;;
                         match decls with
                         | [x] => dims <- get dimension_stack ;;
                                  append (Array x dims) ;;
                                  modify (set_dimension_stack [])
                         | _ => raise AssertionError
                         end)).
  { apply keeps_bind; [by apply keeps_collect|]. intros decls.
    destruct decls as [|x [|]]; eauto with keeps.
    apply keeps_bind; [apply keeps_get|]. intros dims.
    apply keeps_bind; [apply keeps_append|]. intros _.
    intros t b t' [= _ <-].
    repeat split; [apply Forall2_prefix_refl|reflexivity|by right]. }
  destruct (Hrest _ _ _ H) as (Hd & Hh & Hc & _). simpl in *.
  repeat split; try assumption. by right.
Qed.

Lemma keeps_visit_of_dispatch (node : c_ast.node) :
  keeps (dispatch node (generic_visit visit node)) → keeps (visit node).
Proof.
  intros Hd s [] s' H. rewrite visit_unfold in H.
  apply bind_Ok in H as ([] & s0 & [= <-] & H).
  apply bind_Ok in H as ([] & s1 & H1 & H).
  destruct (Hd _ _ _ H1) as (Hds & Hh & Hc & Hm). simpl in *.
  unfold visit_stack_pop in H.
  destruct (pop_last (visit_stack s1)) as [[n vs]|]; [|done].
  unfold assert in H. destruct (c_ast.node_eqb n node); [|done].
  injection H as <-. repeat split; assumption.
Qed.

Lemma keeps_visit_each (l : list c_ast.node) :
  c_ast.list_all _ (λ n, keeps (dispatch n (generic_visit visit n))) l →
  keeps (visit_each visit l).
Proof.
  induction 1 as [|n Hn l Hl IH]; simpl.
  - apply keeps_ret.
  - apply keeps_bind; [by apply keeps_visit_of_dispatch|by intros _].
Qed.

Lemma keeps_visit_opt (o : option c_ast.node) :
  c_ast.option_all _ (λ n, keeps (dispatch n (generic_visit visit n))) o →
  keeps (visit_opt visit o).
Proof.
  destruct 1; simpl; [by apply keeps_visit_of_dispatch|apply keeps_ret].
Qed.

Lemma keeps_dispatch (n : c_ast.node) :
  keeps (dispatch n (generic_visit visit n)).
Proof.
  induction n; simpl;
    repeat match goal with
    | H : keeps (dispatch _ _) |- _ => apply keeps_visit_of_dispatch in H
    | H : c_ast.list_all _ _ _ |- _ => apply keeps_visit_each in H
    | H : c_ast.option_all _ (λ n, keeps _) _ |- _ => apply keeps_visit_opt in H
    end.
  - done.
  - apply keeps_visit_named. keeps_tac; done.
  - by apply keeps_visit_Typedef.
  - done.
  - by apply keeps_visit_named.
  - by apply keeps_visit_PtrDecl.
  - apply keeps_visit_ArrayDecl. keeps_tac; done.
  - apply keeps_visit_FuncDecl. keeps_tac; done.
  - done.
  - apply keeps_ret.
  - apply keeps_visit_Block.
    destruct H; [by apply keeps_visit_each|apply keeps_ret].
  - apply keeps_visit_Block.
    destruct H; [by apply keeps_visit_each|apply keeps_ret].
  - apply keeps_visit_Enum.
  - apply keeps_visit_IdentifierType.
  - apply keeps_ret.
  - apply keeps_ret.
  - done.
Qed.

Lemma keeps_visit (n : c_ast.node) : keeps (visit n).
Proof. apply keeps_visit_of_dispatch, keeps_dispatch. Qed.

(** X1. The lists of [decl_stack] are append-only under a visit: each list
    is found again with what it held, in the same order, followed by what
    the visit added; in particular the declarations already at the top level
    stay where they are. *)
Theorem visit_decl_stack_append_only (n : c_ast.node) (s s' : AutoPxd) :
  visit n s = Ok (tt, s') →
  Forall2 prefix (decl_stack s) (decl_stack s')
  ∧ ∀ top rest, decl_stack s = top :: rest →
      ∃ added rest', decl_stack s' = (top ++ added) :: rest'
                     ∧ length rest' = length rest.
Proof.
  intros H. destruct (keeps_visit n _ _ _ H) as (Hd & _).
  split; [exact Hd|]. intros top rest E. rewrite E in Hd.
  inversion Hd as [|? top' ? rest' [added ->] Hrest]; subst.
  exists added, rest'. split; [reflexivity|].
  symmetry. by eapply Forall2_length.
Qed.

Lemma visit_decl_stack_append_only_witness :
  let s := mkAutoPxd "foo.h" [[IdentifierType "x" "int"]]
             [c_ast.FileAST [Samples.int_x; Samples.struct_bar]] [] [] ∅ in
  let s' := mkAutoPxd "foo.h"
              [[IdentifierType "x" "int";
                Type_ (Ptr (Function "int" (Some "_bar_cb_ft")
                              [IdentifierType "" "uint32_t"]));
                Block "bar" [IdentifierType "cb" "_bar_cb_ft"] "struct" "cdef"]]
              [c_ast.FileAST [Samples.int_x; Samples.struct_bar]]
              ["uint32_t"] [] ∅ in
  visit Samples.struct_bar s = Ok (tt, s')
  ∧ Forall2 prefix (decl_stack s) (decl_stack s').
Proof.
  intros s s'.
  assert (H : visit Samples.struct_bar s = Ok (tt, s')) by (vm_compute; reflexivity).
  split; [exact H|].
  exact (proj1 (visit_decl_stack_append_only Samples.struct_bar s s' H)).
Defined.

(** X2. [dimension_stack] after a visit is what it was before or empty, and
    it is empty after the visit of an [ArrayDecl]: a walk that starts with
    an empty [dimension_stack] finds it empty at every declaration. *)
Theorem visit_dimension_stack (n : c_ast.node) (s s' : AutoPxd) :
  visit n s = Ok (tt, s') →
  (dimension_stack s' = dimension_stack s ∨ dimension_stack s' = [])
  ∧ (c_ast.is_ArrayDecl n = true → dimension_stack s' = [])
  ∧ (dimension_stack s = [] → dimension_stack s' = []).
Proof.
  intros H. destruct (keeps_visit n _ _ _ H) as (_ & _ & _ & Hm).
  split; [exact Hm|]. split.
  - intros Ha. destruct n; try discriminate Ha.
    rewrite visit_unfold in H.
    apply bind_Ok in H as ([] & s0 & [= <-] & H).
    apply bind_Ok in H as ([] & s1 & H1 & H).
    apply visit_ArrayDecl_dimension_stack in H1.
    unfold visit_stack_pop in H.
    destruct (pop_last (visit_stack s1)) as [[n' vs]|]; [|done].
    unfold assert in H. destruct (c_ast.node_eqb _ _); [|done].
    by injection H as <-.
  - intros E. destruct Hm as [Hm|Hm]; congruence.
Qed.

Lemma visit_dimension_stack_witness :
  let n := c_ast.ArrayDecl (c_ast.TypeDecl (Some "a") (c_ast.IdentifierType ["int"]))
             (Some (c_ast.Constant "int" "3")) in
  let s := mkAutoPxd "foo.h" [[]; []] [c_ast.FileAST []] [] ["7"] ∅ in
  let s' := mkAutoPxd "foo.h" [[]; [Array (IdentifierType "a" "int") ["7"; "3"]]]
              [c_ast.FileAST []] [] [] ∅ in
  visit n s = Ok (tt, s') ∧ dimension_stack s' = [].
Proof.
  intros n s s'.
  assert (H : visit n s = Ok (tt, s')) by (vm_compute; reflexivity).
  split; [exact H|].
  exact (proj1 (proj2 (visit_dimension_stack n s s' H)) eq_refl).
Defined.

(** X3. No visit takes a name out of [constants]: a name an enumeration
    has defined stays defined for the rest of the walk. *)
Theorem visit_constants_kept (n : c_ast.node) (s s' : AutoPxd) (name : string) :
  visit n s = Ok (tt, s') →
  is_Some (constants s !! name) →
  is_Some (constants s' !! name).
Proof.
  intros H. destruct (keeps_visit n _ _ _ H) as (_ & _ & Hc & _).
  rewrite <- !elem_of_dom. apply Hc.
Qed.

Lemma visit_constants_kept_witness :
  let s := mkAutoPxd "foo.h" [[]] [c_ast.FileAST []] [] [] {[ "N" := 4%Z ]} in
  let s' := mkAutoPxd "foo.h" [[Enum None ["A"; "B"] "cdef"]] [c_ast.FileAST []] [] []
              {[ "N" := 4%Z; "A" := 1%Z; "B" := 2%Z ]} in
  visit Samples.enum_AB s = Ok (tt, s') ∧ is_Some (constants s' !! "N").
Proof.
  intros s s'.
  assert (H : visit Samples.enum_AB s = Ok (tt, s')) by (vm_compute; reflexivity).
  split; [exact H|].
  exact (visit_constants_kept Samples.enum_AB s s' "N" H (ex_intro _ 4%Z eq_refl)).
Defined.

(** ** The end of a run and the shape of the text *)

(** X4. After a walk that returns, the visitor is balanced: the ancestor
    stack is empty, [decl_stack] holds the top-level list and nothing else,
    [dimension_stack] is empty, the header name is the one given, and no
    fixed-width name is noted twice. *)
Theorem run_leaves_visitor_balanced (ast : c_ast.node) (hdr : string) (p : AutoPxd) :
  run ast hdr = Ok p →
  visit_stack p = []
  ∧ (∃ top, decl_stack p = [top])
  ∧ dimension_stack p = []
  ∧ hdrname p = hdr
  ∧ NoDup (stdint_declarations p).
Proof.
  unfold run. intros H.
  destruct (visit ast (AutoPxd_init hdr)) as [[[] q]|] eqn:Hv; [|done].
  injection H as ->.
  destruct (has_effect_visit ast _ _ _ Hv) as (Hvs & Hst & Hlen).
  destruct (keeps_visit ast _ _ _ Hv) as (_ & Hh & _ & Hm).
  simpl in *. split; [exact Hvs|]. split.
  { destruct (decl_stack p) as [|top [|]]; try discriminate Hlen. by exists top. }
  split; [by destruct Hm|]. split; [exact Hh|].
  rewrite Hst, noted_nil. apply NoDup_first_seen.
Qed.

Lemma run_leaves_visitor_balanced_witness :
  let p := mkAutoPxd "foo.h"
             [[Type_ (Ptr (Function "int" (Some "_bar_cb_ft")
                             [IdentifierType "" "uint32_t"]));
               Block "bar" [IdentifierType "cb" "_bar_cb_ft"] "struct" "cdef"]]
             [] ["uint32_t"] [] ∅ in
  run (c_ast.FileAST [Samples.struct_bar]) "foo.h" = Ok p
  ∧ visit_stack p = []
  ∧ (∃ top, decl_stack p = [top])
  ∧ dimension_stack p = []
  ∧ hdrname p = "foo.h"
  ∧ NoDup (stdint_declarations p).
Proof.
  intros p.
  assert (H : run (c_ast.FileAST [Samples.struct_bar]) "foo.h" = Ok p)
    by (vm_compute; reflexivity).
  split; [exact H|].
  exact (run_leaves_visitor_balanced _ _ _ H).
Defined.

Lemma join_cons (sep x : string) (l : list string) :
  l ≠ [] → join sep (x :: l) = x +:+ sep +:+ join sep l.
Proof. by destruct l. Qed.

Lemma string_app_nil_r (s : string) : s +:+ "" = s.
Proof.
  induction s as [|a s IH]; [reflexivity|].
  change (String a (s +:+ "") = String a s). by rewrite IH.
Qed.

Lemma string_app_assoc (a b c : string) : (a +:+ b) +:+ c = a +:+ b +:+ c.
Proof.
  induction a as [|x a IH]; [reflexivity|].
  change (String x ((a +:+ b) +:+ c) = String x (a +:+ b +:+ c)). by rewrite IH.
Qed.

Lemma join_snoc (sep x : string) (l : list string) :
  l ≠ [] → join sep (l ++ [x]) = join sep l +:+ sep +:+ x.
Proof.
  induction l as [|y l IH]; [done|]. intros _.
  destruct l as [|z l]; [done|].
  change ((y :: z :: l) ++ [x]) with (y :: ((z :: l) ++ [x])).
  rewrite join_cons by (by destruct l).
  rewrite IH by discriminate.
  rewrite (join_cons sep y (z :: l)) by discriminate.
  by rewrite !string_app_assoc.
Qed.

Lemma is_cimport_cimport (x : string) (l : list string) :
  is_cimport (cimport (x :: l)) = true.
Proof.
  unfold is_cimport, cimport. simpl.
  match goal with |- String.prefix "" ?t = true => by destruct t end.
Qed.

(** The lines below the header are none, or end with an empty line. *)
Lemma top_level_lines_end (decls : list pyobj) : ∀ body,
  top_level_lines decls = Ok body → body = [] ∨ ∃ b, body = b ++ [""].
Proof.
  induction decls as [|d decls IH]; intros body; simpl.
  - intros [= <-]. by left.
  - destruct (lines d) as [dl|]; [|done].
    destruct (top_level_lines decls) as [rest|]; [|done].
    intros [= <-]. right.
    destruct (IH rest eq_refl) as [->|[b ->]].
    + exists (String.append indent <$> dl). reflexivity.
    + exists ((String.append indent <$> dl) ++ [""] ++ b).
      rewrite <- app_assoc. reflexivity.
Qed.

(** X5. The text [translate] returns is the import line, if any, then the
    header line that names the header as given, a line break, and a rest
    that is empty or ends with a line break: the text always ends with a
    line break. *)
Theorem translate_text_shape (ast : c_ast.node) (hdr : string) (out : string) :
  translate ast hdr = Ok out →
  ∃ imp rest,
    out = imp +:+ ("cdef extern from " +:+ dquote +:+ hdr +:+ dquote +:+ ":")
              +:+ nl +:+ rest
    ∧ (imp = "" ∨ is_cimport imp = true)
    ∧ (rest = "" ∨ ∃ t, rest = t +:+ nl).
Proof.
  intros H. unfold translate, translate_from in H.
  destruct (visit ast (AutoPxd_init hdr)) as [[[] p]|] eqn:Hv; [|done].
  destruct (keeps_visit ast _ _ _ Hv) as (_ & Hh & _). simpl in Hh.
  unfold pxd_string, AutoPxd_lines in H.
  destruct (decl_stack p) as [|top ?]; [done|].
  destruct (top_level_lines top) as [body|] eqn:Hb; [|done].
  injection H as <-. rewrite Hh.
  exists (cimport (stdint_declarations p)), (join nl ("" :: body)).
  split; [|split].
  - reflexivity.
  - destruct (stdint_declarations p); [by left|right].
    apply is_cimport_cimport.
  - apply top_level_lines_end in Hb as [->|[b ->]]; [by left|right].
    exists (join nl ("" :: b)).
    change ("" :: b ++ [""]) with (("" :: b) ++ [""]).
    rewrite (join_snoc nl "" ("" :: b)) by discriminate.
    by rewrite string_app_nil_r.
Qed.

Lemma translate_text_shape_witness :
  translate (c_ast.FileAST [Samples.stdint_user]) "foo.h" = Ok stdint_user_text
  ∧ ∃ imp rest,
      stdint_user_text
      = imp +:+ ("cdef extern from " +:+ dquote +:+ "foo.h" +:+ dquote +:+ ":")
            +:+ nl +:+ rest
      ∧ (imp = "" ∨ is_cimport imp = true)
      ∧ (rest = "" ∨ ∃ t, rest = t +:+ nl).
Proof.
  assert (H : translate (c_ast.FileAST [Samples.stdint_user]) "foo.h"
              = Ok stdint_user_text) by (vm_compute; reflexivity).
  split; [exact H|].
  exact (translate_text_shape _ _ _ H).
Defined.

(** ** Structures and unions *)

Lemma child_of_parent is_type s anc g p node :
  visit_stack s = anc ++ [g; p; node] →
  child_of is_type 2 s = Ok (is_type p, s).
Proof.
  intros E. unfold child_of. erewrite bind_eval; cycle 1.
  { unfold lift. rewrite E. change [g; p; node] with ([g] ++ [p; node]).
    rewrite app_assoc, index_back_snoc2. reflexivity. }
  reflexivity.
Qed.

Lemma child_of_grandparent is_type s anc g p node :
  visit_stack s = anc ++ [g; p; node] →
  child_of is_type 3 s = Ok (is_type g, s).
Proof.
  intros E. unfold child_of. erewrite bind_eval; cycle 1.
  { unfold lift. rewrite E, index_back_snoc3. reflexivity. }
  reflexivity.
Qed.

Lemma and_child_of_grandparent x is_type s anc g p node :
  visit_stack s = anc ++ [g; p; node] →
  and_child_of x is_type 3 s = Ok (x && is_type g, s).
Proof.
  intros E. destruct x; simpl; [by eapply child_of_grandparent|reflexivity].
Qed.

Lemma path_names_at s anc g p node :
  visit_stack s = anc ++ [g; p; node] →
  path_names s = omap path_component (anc ++ [g]).
Proof.
  intros E. unfold path_names. rewrite E.
  change [g; p; node] with ([g] ++ [p; node]).
  by rewrite app_assoc, drop_last2_snoc.
Qed.

Lemma dispatch_aggregate union name decls gv :
  dispatch (aggregate union name decls) gv
  = visit_Block name decls (kind_of union) gv.
Proof. by destruct union. Qed.

(** The start of [visit_Block]: the two questions to the ancestor stack
    and the choice of the name. *)
Lemma visit_Block_start name decls kind gv s anc g p node :
  visit_stack s = anc ++ [g; p; node] →
  visit_Block name decls kind gv s =
    (let type_decl := c_ast.is_TypeDecl p in
     let type_def := type_decl && c_ast.is_Typedef g in
     let names := omap path_component (anc ++ [g]) in
     let name' :=
       if truthy name then str_opt name
       else if type_def then untagged_name names
       else tagged_name names (String.substring 0 1 kind) in
     if no_decls decls then
       if type_decl then append (Str name') else ret tt
     else
       fields <- collect gv ;;
       if type_def && is_None name then
         append_top (Block name' fields kind "ctypedef")
       else
         append_top (Block name' fields kind "cdef") ;;
         if type_decl then append (Str name') else ret tt) s.
Proof.
  intros E. unfold visit_Block.
  erewrite bind_eval by (by eapply child_of_parent).
  erewrite bind_eval by (by eapply and_child_of_grandparent).
  erewrite (bind_eval _ _ _
              (if truthy name then str_opt name
               else if c_ast.is_TypeDecl p && c_ast.is_Typedef g
                    then untagged_name (omap path_component (anc ++ [g]))
                    else tagged_name (omap path_component (anc ++ [g]))
                           (String.substring 0 1 kind)) s); cycle 1.
  { destruct (truthy name); [reflexivity|].
    destruct (_ && _); unfold path_name, get;
      by erewrite path_names_at by exact E. }
  simpl. destruct (no_decls decls); [|reflexivity].
  erewrite bind_eval by (by eapply child_of_parent). reflexivity.
Qed.

(** X6. A structure or union without name that has members, below a
    [TypeDecl].  As the target of a typedef it goes to the top level under
    the path name as it is, with the statement [ctypedef], and nothing is
    left in the list being collected.  Otherwise it goes to the top level
    under the path name between a leading underscore and the tag [_s] or
    [_u], with the statement [cdef], and that name is left in the list
    being collected. *)
Theorem anonymous_aggregate_block (union : bool) (m : c_ast.node)
    (ms : list c_ast.node) (s s1 : AutoPxd) (anc : list c_ast.node)
    (g p : c_ast.node) (fields top : list pyobj) (mid : list (list pyobj))
    (cur : list pyobj) :
  let node := aggregate union None (Some (m :: ms)) in
  let names := omap path_component (anc ++ [g]) in
  let tagged := "_" +:+ join "_" names +:+ (if union then "_u" else "_s") in
  visit_stack s = anc ++ [g; p] →
  c_ast.is_TypeDecl p = true →
  collect (generic_visit visit node)
    (set_visit_stack (visit_stack s ++ [node]) s) = Ok (fields, s1) →
  decl_stack s1 = top :: mid ++ [cur] →
  ∃ s2, visit node s = Ok (tt, s2)
        ∧ decl_stack s2 =
            if c_ast.is_Typedef g
            then (top ++ [Block (join "_" names) fields (kind_of union) "ctypedef"])
                   :: mid ++ [cur]
            else (top ++ [Block tagged fields (kind_of union) "cdef"])
                   :: mid ++ [cur ++ [Str tagged]].
Proof.
  intros node names tagged Hvs Hp Hc Hds.
  assert (Hvs0 : visit_stack (set_visit_stack (visit_stack s ++ [node]) s)
                 = anc ++ [g; p; node]).
  { simpl. rewrite Hvs, <- app_assoc. reflexivity. }
  destruct (c_ast.is_Typedef g) eqn:Hg.
  - eexists. split.
    + erewrite visit_eval; cycle 1.
      { unfold node at 1. rewrite dispatch_aggregate.
        erewrite visit_Block_start by exact Hvs0.
        rewrite Hp, Hg. simpl.
        erewrite bind_eval by exact Hc. simpl.
        apply append_top_eval. exact Hds. }
      reflexivity.
    + reflexivity.
  - eexists. split.
    + erewrite visit_eval; cycle 1.
      { unfold node at 1. rewrite dispatch_aggregate.
        erewrite visit_Block_start by exact Hvs0.
        rewrite Hp, Hg. simpl.
        erewrite bind_eval by exact Hc. simpl.
        erewrite bind_eval by (by apply append_top_eval).
        eapply (append_eval _ _ (_ :: mid) cur). reflexivity. }
      reflexivity.
    + simpl. unfold tagged_name, tagged. by destruct union.
Qed.

Lemma anonymous_aggregate_block_witness :
  let node := c_ast.Union None (Some [Samples.int_x]) in
  let v := c_ast.Decl (Some "v") (c_ast.TypeDecl (Some "v") node) None None in
  let s := mkAutoPxd "foo.h" [[]; []; []]
             [c_ast.FileAST [v]; v; c_ast.TypeDecl (Some "v") node] [] [] ∅ in
  ∃ s2, visit node s = Ok (tt, s2)
        ∧ decl_stack s2 =
            [[Block "_v_u" [IdentifierType "x" "int"] "union" "cdef"]; [];
             [Str "_v_u"]].
Proof.
  intros node v s.
  refine (anonymous_aggregate_block true Samples.int_x [] s
            (mkAutoPxd "foo.h" [[]; []; []] (visit_stack s ++ [node]) [] [] ∅)
            [c_ast.FileAST [v]] v (c_ast.TypeDecl (Some "v") node)
            [IdentifierType "x" "int"] [] [[]] [] _ _ _ _);
    vm_compute; reflexivity.
Defined.

(** X7. A structure or union with a name and with members goes to the top
    level under its own name with the statement [cdef], typedef or not; its
    name is left in the list being collected exactly when its parent is a
    [TypeDecl]. *)
Theorem named_aggregate_block (union : bool) (name : string) (m : c_ast.node)
    (ms : list c_ast.node) (s s1 : AutoPxd) (anc : list c_ast.node)
    (g p : c_ast.node) (fields top : list pyobj) (mid : list (list pyobj))
    (cur : list pyobj) :
  let node := aggregate union (Some name) (Some (m :: ms)) in
  name ≠ "" →
  visit_stack s = anc ++ [g; p] →
  collect (generic_visit visit node)
    (set_visit_stack (visit_stack s ++ [node]) s) = Ok (fields, s1) →
  decl_stack s1 = top :: mid ++ [cur] →
  ∃ s2, visit node s = Ok (tt, s2)
        ∧ decl_stack s2 =
            (top ++ [Block name fields (kind_of union) "cdef"])
              :: mid ++ [if c_ast.is_TypeDecl p then cur ++ [Str name] else cur].
Proof.
  intros node Hn Hvs Hc Hds.
  assert (Hvs0 : visit_stack (set_visit_stack (visit_stack s ++ [node]) s)
                 = anc ++ [g; p; node]).
  { simpl. rewrite Hvs, <- app_assoc. reflexivity. }
  assert (Ht : truthy (Some name) = true).
  { simpl. destruct (String.eqb_spec name ""); [contradiction|reflexivity]. }
  destruct (c_ast.is_TypeDecl p) eqn:Hp.
  - eexists. split.
    + erewrite visit_eval; cycle 1.
      { unfold node at 1. rewrite dispatch_aggregate.
        erewrite visit_Block_start by exact Hvs0.
        rewrite Hp, Ht. cbv zeta. rewrite andb_false_r. simpl.
        erewrite bind_eval by exact Hc. simpl.
        erewrite bind_eval by (by apply append_top_eval).
        eapply (append_eval _ _ (_ :: mid) cur). reflexivity. }
      reflexivity.
    + reflexivity.
  - eexists. split.
    + erewrite visit_eval; cycle 1.
      { unfold node at 1. rewrite dispatch_aggregate.
        erewrite visit_Block_start by exact Hvs0.
        rewrite Hp, Ht. simpl.
        erewrite bind_eval by exact Hc. simpl.
        erewrite bind_eval by (by apply append_top_eval).
        reflexivity. }
      reflexivity.
    + reflexivity.
Qed.

Lemma named_aggregate_block_witness :
  let node := c_ast.Struct (Some "foo") (Some [Samples.int_x]) in
  let d := c_ast.Decl None node None None in
  let s := mkAutoPxd "foo.h" [[]; []] [c_ast.FileAST [d]; d] [] [] ∅ in
  ∃ s2, visit node s = Ok (tt, s2)
        ∧ decl_stack s2 =
            [[Block "foo" [IdentifierType "x" "int"] "struct" "cdef"]; []].
Proof.
  intros node d s.
  refine (named_aggregate_block false "foo" Samples.int_x [] s
            (mkAutoPxd "foo.h" [[]; []] (visit_stack s ++ [node]) [] [] ∅)
            [] (c_ast.FileAST [d]) d
            [IdentifierType "x" "int"] [] [] [] _ _ _ _);
    [discriminate|vm_compute; reflexivity..].
Defined.

(** X8. A structure or union with a name and without members is a
    reference.  Below a [TypeDecl] the visit leaves its name in the list
    being collected and nothing at the top level; anywhere else, as in the
    forward declaration [struct foo;], the visit changes nothing at all. *)
Theorem aggregate_reference (union : bool) (name : string)
    (decls : option (list c_ast.node)) (s : AutoPxd) (anc : list c_ast.node)
    (g p : c_ast.node) (fr : list (list pyobj)) (cur : list pyobj) :
  let node := aggregate union (Some name) decls in
  name ≠ "" →
  no_decls decls = true →
  visit_stack s = anc ++ [g; p] →
  decl_stack s = fr ++ [cur] →
  visit node s =
    Ok (tt, if c_ast.is_TypeDecl p
            then set_decl_stack (fr ++ [cur ++ [Str name]]) s
            else s).
Proof.
  intros node Hn Hno Hvs Hds.
  assert (Hvs0 : visit_stack (set_visit_stack (visit_stack s ++ [node]) s)
                 = anc ++ [g; p; node]).
  { simpl. rewrite Hvs, <- app_assoc. reflexivity. }
  assert (Ht : truthy (Some name) = true).
  { simpl. destruct (String.eqb_spec name ""); [contradiction|reflexivity]. }
  destruct (c_ast.is_TypeDecl p) eqn:Hp.
  - erewrite visit_eval; cycle 1.
    { unfold node at 1. rewrite dispatch_aggregate.
      erewrite visit_Block_start by exact Hvs0.
      rewrite Hp, Ht, Hno. simpl.
      apply append_eval. exact Hds. }
    by destruct s.
  - erewrite visit_eval; cycle 1.
    { unfold node at 1. rewrite dispatch_aggregate.
      erewrite visit_Block_start by exact Hvs0.
      rewrite Hp, Ht, Hno. cbv zeta. reflexivity. }
    by destruct s.
Qed.

Lemma aggregate_reference_witness :
  let node := c_ast.Struct (Some "foo") None in
  let d := c_ast.Decl None node None None in
  let s := mkAutoPxd "foo.h" [[]; []] [c_ast.FileAST [d]; d] [] [] ∅ in
  visit node s = Ok (tt, s).
Proof.
  intros node d s.
  exact (aggregate_reference false "foo" None s [] (c_ast.FileAST [d]) d [[]] []
           ltac:(discriminate) eq_refl eq_refl eq_refl).
Defined.

(** ** Enumerations, continued *)

(** [visit_Enum] after the loop over the enumerators: the two questions to
    the ancestor stack and the choice of the name. *)
Lemma visit_Enum_start name values s s1 anc g p node :
  visit_stack s = anc ++ [g; p; node] →
  match values with Some es => Enum_values es 0 | None => ret tt end s
  = Ok (tt, s1) →
  visit_Enum name values s =
    (let items := match values with Some es => es.*1 | None => [] end in
     let type_decl := c_ast.is_TypeDecl p in
     let type_def := type_decl && c_ast.is_Typedef g in
     let name' :=
       if truthy name then name
       else if type_def
            then Some (untagged_name (omap path_component (anc ++ [g])))
            else name in
     if is_None name && type_def && negb (Nat.eqb (length items) 0) then
       append_top (Enum name' items "ctypedef")
     else
       (if negb (Nat.eqb (length items) 0)
        then append_top (Enum name' items "cdef") else ret tt) ;;
       if type_decl then append (of_name name') else ret tt) s1.
Proof.
  intros E Hev.
  assert (E1 : visit_stack s1 = anc ++ [g; p; node]).
  { destruct values as [es|].
    - apply Enum_values_constants in Hev as [c ->]. exact E.
    - by injection Hev as <-. }
  unfold visit_Enum. erewrite bind_eval by exact Hev.
  erewrite bind_eval by (by eapply child_of_parent).
  erewrite bind_eval by (by eapply and_child_of_grandparent).
  erewrite (bind_eval _ _ _
              (if truthy name then name
               else if c_ast.is_TypeDecl p && c_ast.is_Typedef g
                    then Some (untagged_name (omap path_component (anc ++ [g])))
                    else name) s1); cycle 1.
  { destruct (truthy name); [reflexivity|].
    destruct (_ && _); [|reflexivity].
    unfold path_name, get, bind, ret.
    by erewrite path_names_at by exact E1. }
  reflexivity.
Qed.

(** X9. An enumeration without name that has enumerators and is the target
    of a typedef goes to the top level under the path name as it is, with
    the statement [ctypedef]; nothing is left in the list being collected,
    so that the typedef adds no alias of its own. *)
Theorem typedef_enum_block (e : string * option c_ast.node)
    (es : list (string * option c_ast.node)) (s s1 : AutoPxd)
    (anc : list c_ast.node) (g p : c_ast.node)
    (top : list pyobj) (rest : list (list pyobj)) :
  let node := c_ast.Enum None (Some (e :: es)) in
  let name := join "_" (omap path_component (anc ++ [g])) in
  visit_stack s = anc ++ [g; p] →
  c_ast.is_TypeDecl p = true →
  c_ast.is_Typedef g = true →
  Enum_values (e :: es) 0 (set_visit_stack (visit_stack s ++ [node]) s)
  = Ok (tt, s1) →
  decl_stack s = top :: rest →
  ∃ s2, visit node s = Ok (tt, s2)
        ∧ decl_stack s2
          = (top ++ [Enum (Some name) ((e :: es).*1) "ctypedef"]) :: rest
        ∧ constants s2 = constants s1.
Proof.
  intros node name Hvs Hp Hg Hev Hds.
  assert (Hvs0 : visit_stack (set_visit_stack (visit_stack s ++ [node]) s)
                 = anc ++ [g; p; node]).
  { simpl. rewrite Hvs, <- app_assoc. reflexivity. }
  destruct (Enum_values_constants _ _ _ _ Hev) as [c Hs1].
  eexists. split; [|split].
  - erewrite visit_eval; cycle 1.
    { simpl dispatch.
      erewrite (visit_Enum_start None (Some (e :: es))) by (exact Hvs0 || exact Hev).
      rewrite Hp, Hg. simpl.
      apply append_top_eval. rewrite Hs1. exact Hds. }
    reflexivity.
  - reflexivity.
  - reflexivity.
Qed.

Lemma typedef_enum_block_witness :
  let node := c_ast.Enum None (Some [("A", None); ("B", None)]) in
  let td := c_ast.Typedef (Some "e_t") (c_ast.TypeDecl (Some "e_t") node) in
  let s := mkAutoPxd "foo.h" [[]; []; []]
             [c_ast.FileAST [td]; td; c_ast.TypeDecl (Some "e_t") node] [] [] ∅ in
  ∃ s2, visit node s = Ok (tt, s2)
        ∧ decl_stack s2 = [[Enum (Some "e_t") ["A"; "B"] "ctypedef"]; []; []]
        ∧ constants s2 = {[ "A" := 1%Z; "B" := 2%Z ]}.
Proof.
  intros node td s.
  refine (typedef_enum_block ("A", None) [("B", None)] s
            (mkAutoPxd "foo.h" [[]; []; []] (visit_stack s ++ [node]) [] []
               {[ "A" := 1%Z; "B" := 2%Z ]})
            [c_ast.FileAST [td]] td (c_ast.TypeDecl (Some "e_t") node)
            [] [[]; []] _ _ _ _ _);
    vm_compute; reflexivity.
Defined.

(** X10. An enumeration with a name: the block goes to the top level, under
    that name and with the statement [cdef], only when there are
    enumerators; without any, nothing goes to the top level.  Either way
    the name is left in the list being collected exactly when the parent is
    a [TypeDecl]. *)
Theorem named_enum (name : string)
    (values : option (list (string * option c_ast.node)))
    (s s1 : AutoPxd) (anc : list c_ast.node) (g p : c_ast.node)
    (top : list pyobj) (mid : list (list pyobj)) (cur : list pyobj) :
  let node := c_ast.Enum (Some name) values in
  let items := match values with Some es => es.*1 | None => [] end in
  name ≠ "" →
  visit_stack s = anc ++ [g; p] →
  match values with Some es => Enum_values es 0 | None => ret tt end
    (set_visit_stack (visit_stack s ++ [node]) s)
  = Ok (tt, s1) →
  decl_stack s = top :: mid ++ [cur] →
  ∃ s2, visit node s = Ok (tt, s2)
        ∧ decl_stack s2 =
            (top ++ match items with
                    | [] => []
                    | _ => [Enum (Some name) items "cdef"]
                    end)
              :: mid ++ [if c_ast.is_TypeDecl p then cur ++ [Str name] else cur].
Proof.
  intros node items Hn Hvs Hev Hds.
  assert (Hvs0 : visit_stack (set_visit_stack (visit_stack s ++ [node]) s)
                 = anc ++ [g; p; node]).
  { simpl. rewrite Hvs, <- app_assoc. reflexivity. }
  assert (Ht : truthy (Some name) = true).
  { simpl. destruct (String.eqb_spec name ""); [contradiction|reflexivity]. }
  assert (Hs1 : decl_stack s1 = top :: mid ++ [cur]).
  { destruct values as [es|].
    - apply Enum_values_constants in Hev as [c ->]. exact Hds.
    - injection Hev as <-. exact Hds. }
  pose proof (visit_Enum_start (Some name) values _ _ _ _ _ _ Hvs0 Hev) as Hstart.
  rewrite Ht in Hstart. cbv zeta in Hstart. fold items in Hstart.
  change (is_None (Some name)) with false in Hstart. simpl andb in Hstart.
  cbv iota in Hstart.
  destruct items as [|i items'] eqn:Hi; simpl in Hstart;
    destruct (c_ast.is_TypeDecl p) eqn:Hp.
  - eexists. split.
    + erewrite visit_eval; cycle 1.
      { simpl dispatch. rewrite Hstart.
        erewrite bind_eval by reflexivity.
        apply (append_eval _ _ (top :: mid) cur). exact Hs1. }
      reflexivity.
    + simpl. by rewrite app_nil_r.
  - eexists. split.
    + erewrite visit_eval; cycle 1.
      { simpl dispatch. rewrite Hstart. reflexivity. }
      reflexivity.
    + simpl. by rewrite Hs1, app_nil_r.
  - eexists. split.
    + erewrite visit_eval; cycle 1.
      { simpl dispatch. rewrite Hstart.
        erewrite bind_eval by (by apply append_top_eval).
        eapply (append_eval _ _ (_ :: mid) cur). reflexivity. }
      reflexivity.
    + reflexivity.
  - eexists. split.
    + erewrite visit_eval; cycle 1.
      { simpl dispatch. rewrite Hstart.
        erewrite bind_eval by (by apply append_top_eval).
        reflexivity. }
      reflexivity.
    + reflexivity.
Qed.

Lemma named_enum_witness :
  let node := c_ast.Enum (Some "color") None in
  let v := c_ast.Decl (Some "c") (c_ast.TypeDecl (Some "c") node) None None in
  let s := mkAutoPxd "foo.h" [[]; []; []]
             [c_ast.FileAST [v]; v; c_ast.TypeDecl (Some "c") node] [] [] ∅ in
  ∃ s2, visit node s = Ok (tt, s2)
        ∧ decl_stack s2 = [[]; []; [Str "color"]].
Proof.
  intros node v s.
  refine (named_enum "color" None s
            (mkAutoPxd "foo.h" [[]; []; []] (visit_stack s ++ [node]) [] [] ∅)
            [c_ast.FileAST [v]] v (c_ast.TypeDecl (Some "c") node)
            [] [[]] [] _ _ _ _);
    [discriminate|vm_compute; reflexivity..].
Defined.

Lemma Enum_values_cons_inv a va rest value s s1 :
  Enum_values ((a, va) :: rest) value s = Ok (tt, s1) →
  ∃ za,
    match va ≫= c_ast.value_attr with
    | Some text => int text = Ok za
    | None => za = (value + 1)%Z
    end
    ∧ Enum_values rest za (set_constants (<[a := za]> (constants s)) s)
      = Ok (tt, s1).
Proof.
  simpl. intros H.
  apply bind_Ok in H as (za & s0 & [Hv ->]%lift_Ok & H).
  apply bind_Ok in H as ([] & s0 & [= <-] & H).
  exists za. split; [|exact H].
  destruct (va ≫= c_ast.value_attr); [exact Hv|]. by injection Hv as <-.
Qed.

Lemma Enum_values_app_inv pre l : ∀ value s s1,
  Enum_values (pre ++ l) value s = Ok (tt, s1) →
  ∃ value' s', Enum_values l value' s' = Ok (tt, s1).
Proof.
  induction pre as [|[a va] pre IH]; intros value s s1 H.
  - by exists value, s.
  - apply Enum_values_cons_inv in H as (za & _ & H). by eapply IH.
Qed.

(** X11. In the loop over the enumerators, an enumerator with a constant
    gets the number [int] reads from its text, and one without gets one more
    than the enumerator before it, wherever the two stand in the list,
    provided neither name is defined again further on. *)
Theorem enumerator_follows (pre post : list (string * option c_ast.node))
    (a b : string) (va vb : option c_ast.node) (value : Z) (s s1 : AutoPxd) :
  Enum_values (pre ++ (a, va) :: (b, vb) :: post) value s = Ok (tt, s1) →
  a ≠ b →
  a ∉ post.*1 →
  b ∉ post.*1 →
  ∃ za, constants s1 !! a = Some za
        ∧ match vb ≫= c_ast.value_attr with
          | Some text => ∃ zb, int text = Ok zb ∧ constants s1 !! b = Some zb
          | None => constants s1 !! b = Some (za + 1)%Z
          end.
Proof.
  intros H Hab Ha Hb.
  apply Enum_values_app_inv in H as (v' & s' & H).
  apply Enum_values_cons_inv in H as (za & _ & H).
  exists za. split.
  - rewrite (Enum_values_lookup_other _ a _ _ _ H).
    + simpl. apply lookup_insert_eq.
    + simpl. intros [?|?]%elem_of_cons; contradiction.
  - exact (Enum_values_head _ _ _ _ _ _ H Hb).
Qed.

Lemma enumerator_follows_witness :
  let s1 := set_constants {[ "A" := 1%Z; "B" := 5%Z; "C" := 6%Z ]}
              (AutoPxd_init "foo.h") in
  Enum_values [("A", None); ("B", Some (c_ast.Constant "int" "5")); ("C", None)]
    0 (AutoPxd_init "foo.h") = Ok (tt, s1)
  ∧ ∃ za, constants s1 !! "B" = Some za
          ∧ constants s1 !! "C" = Some (za + 1)%Z.
Proof.
  intros s1.
  assert (H : Enum_values
                ([("A", None)] ++ ("B", Some (c_ast.Constant "int" "5"))
                   :: ("C", None) :: [])
                0 (AutoPxd_init "foo.h") = Ok (tt, s1))
    by (vm_compute; reflexivity).
  split; [exact H|].
  exact (enumerator_follows [("A", None)] [] "B" "C" _ None 0 _ s1 H
           ltac:(discriminate) ltac:(apply not_elem_of_nil)
           ltac:(apply not_elem_of_nil)).
Defined.

Lemma bind_Raise {A B} (m : M A) (k : A → M B) s e :
  m s = Raise e → bind m k s = Raise e.
Proof. unfold bind. by intros ->. Qed.

Lemma int_raises (text : string) (e : exn) : int text = Raise e → e = ValueError.
Proof.
  unfold int. destruct text; [by intros [= <-]|].
  destruct (int_go _ _); [done|]. by intros [= <-].
Qed.

Lemma Enum_values_raises pre n ty text post : ∀ value s,
  int text = Raise ValueError →
  Enum_values (pre ++ (n, Some (c_ast.Constant ty text)) :: post) value s
  = Raise ValueError.
Proof.
  induction pre as [|[a va] pre IH]; intros value s Hbad; simpl.
  - rewrite Hbad. reflexivity.
  - unfold bind at 1, lift.
    destruct (match va ≫= c_ast.value_attr with
              | Some t => int t
              | None => Ok (value + 1)%Z
              end) as [za|e] eqn:Hv.
    + unfold bind at 1, modify. by apply IH.
    + destruct (va ≫= c_ast.value_attr); [|done].
      by apply int_raises in Hv as ->.
Qed.

Lemma is_letter_digit_of (c : Ascii.ascii) : is_letter c = true → digit_of c = None.
Proof.
  unfold is_letter, digit_of. intros H.
  destruct (Nat.leb 48 _ && Nat.leb _ 57) eqn:E; [|reflexivity].
  apply andb_prop in E as [_ E%Nat.leb_le].
  apply orb_prop in H as [H|H]; apply andb_prop in H as [H%Nat.leb_le _]; lia.
Qed.

Lemma int_go_letter (text : string) : ∀ acc,
  has_letter text = true → int_go text acc = None.
Proof.
  unfold has_letter.
  induction text as [|c text IH]; intros acc H; simpl in *; [discriminate|].
  destruct (is_letter c) eqn:E.
  - by rewrite (is_letter_digit_of c E).
  - destruct (digit_of c); [|reflexivity]. by apply IH.
Qed.

(** No text with a letter in it is the text of a number for [int]. *)
Lemma int_letter (text : string) : has_letter text = true → int text = Raise ValueError.
Proof.
  intros H. unfold int. destruct text; [discriminate|].
  by rewrite int_go_letter.
Qed.

(** X12. An enumerator whose constant has a letter in its text, as the
    hexadecimal [0x10], the suffixed [10u] or the character ['a'] have,
    stops the walk: the visit of the enumeration raises [ValueError],
    whatever the other enumerators are. *)
Theorem enum_literal_ValueError (name : option string)
    (pre post : list (string * option c_ast.node)) (n ty text : string)
    (s : AutoPxd) :
  has_letter text = true →
  visit (c_ast.Enum name
           (Some (pre ++ (n, Some (c_ast.Constant ty text)) :: post))) s
  = Raise ValueError.
Proof.
  intros Hbad%int_letter. rewrite visit_unfold.
  erewrite bind_eval by reflexivity.
  apply bind_Raise. simpl dispatch. unfold visit_Enum.
  apply bind_Raise. by apply Enum_values_raises.
Qed.

Lemma enum_literal_ValueError_witness :
  visit (c_ast.Enum (Some "flags")
           (Some [("A", None); ("B", Some (c_ast.Constant "int" "0x10"))]))
    (AutoPxd_init "foo.h")
  = Raise ValueError.
Proof.
  exact (enum_literal_ValueError (Some "flags") [("A", None)] [] "B" "int" "0x10"
           (AutoPxd_init "foo.h") eq_refl).
Defined.

(** ** Rendering *)

Lemma get_type_name_raises x e :
  get_type_name x = Raise e → e = AttributeError.
Proof.
  induction x; simpl; try (by intros [= <-]); try done.
  destruct (get_type_name x); [done|]. intros [= <-]. by apply IHx.
Qed.

Lemma get_name_raises x e :
  get_name x = Raise e → e = AttributeError ∨ e = TypeError.
Proof.
  induction x; simpl; try (by intros [= <-]; left); try done.
  destruct dimensions as [|d ds]; [done|].
  destruct (get_name x) as [[n|]|e']; [done| |].
  - intros [= <-]. by right.
  - intros [= <-]. by apply IHx.
Qed.

Lemma IdentifierType_lines_one x ls :
  IdentifierType_lines x = Ok ls → ∃ l, ls = [l].
Proof.
  unfold IdentifierType_lines.
  destruct (get_name x) as [n|]; [|done].
  destruct (get_type_name x) as [t|]; [|done].
  destruct (truthy n); intros [= <-]; eauto.
Qed.

Lemma IdentifierType_lines_raises x e :
  IdentifierType_lines x = Raise e → e = AttributeError ∨ e = TypeError.
Proof.
  unfold IdentifierType_lines.
  destruct (get_name x) as [n|e'] eqn:Hn.
  - destruct (get_type_name x) as [t|e'] eqn:Ht.
    + by destruct (truthy n).
    + intros [= <-]. left. by eapply get_type_name_raises.
  - intros [= <-]. by eapply get_name_raises.
Qed.

Lemma argstr_with_raises (args : list pyobj) e :
  c_ast.list_all _ (λ a, lines a ≠ Raise IndexError) args →
  argstr_with lines args = Raise e → e ≠ IndexError.
Proof.
  induction 1 as [|a Ha args Hargs IH]; simpl; [done|].
  destruct (lines a) as [[|l [|]]|e'] eqn:El.
  - by intros [= <-].
  - destruct (argstr_with lines args); [done|]. intros [= <-]. by apply IH.
  - by intros [= <-].
  - intros [= <-]. congruence.
Qed.

Lemma field_lines_with_raises (fields : list pyobj) e :
  c_ast.list_all _ (λ a, lines a ≠ Raise IndexError) fields →
  field_lines_with lines fields = Raise e → e ≠ IndexError.
Proof.
  induction 1 as [|a Ha fields Hfields IH]; simpl; [done|].
  destruct (lines a) as [ls|e'] eqn:El.
  - destruct (field_lines_with lines fields); [done|]. intros [= <-]. by apply IH.
  - intros [= <-]. congruence.
Qed.

Lemma list_all_proj1 {A} (P Q : A → Prop) (l : list A) :
  c_ast.list_all A (λ a, P a ∧ Q a) l → c_ast.list_all A Q l.
Proof. induction 1 as [|a [_ ?] l _ IH]; by constructor. Qed.

(** X13. [lines] never returns an empty list and never raises
    [IndexError]: the first line [Type.lines] rewrites is always there. *)
Theorem lines_not_empty (x : pyobj) :
  (∀ ls, lines x = Ok ls → ls ≠ []) ∧ lines x ≠ Raise IndexError.
Proof.
  induction x.
  - done.
  - done.
  - split.
    + intros ls [l ->]%IdentifierType_lines_one. done.
    + intros [?|?]%IdentifierType_lines_raises; done.
  - apply list_all_proj1 in H. simpl. split.
    + destruct (argstr_with lines args); [|done]. by intros ls [= <-].
    + destruct (argstr_with lines args) eqn:E; [done|].
      intros [= ->]. by eapply argstr_with_raises.
  - destruct IHx as [IH1 IH2].
    assert (Hid : (∀ ls, IdentifierType_lines (Ptr x) = Ok ls → ls ≠ [])
                  ∧ IdentifierType_lines (Ptr x) ≠ Raise IndexError).
    { split.
      - intros ls [l ->]%IdentifierType_lines_one. done.
      - intros [?|?]%IdentifierType_lines_raises; done. }
    destruct x; try exact Hid.
    simpl in *. split.
    + destruct (argstr_with lines args); [|done]. by intros ls [= <-].
    + destruct (argstr_with lines args) eqn:E; [done|].
      intros [= ->]. by apply IH2.
  - split.
    + intros ls [l ->]%IdentifierType_lines_one. done.
    + intros [?|?]%IdentifierType_lines_raises; done.
  - destruct IHx as [IH1 IH2]. simpl. split.
    + destruct (lines x) as [[|l ls']|]; [done| |done]. by intros ls [= <-].
    + destruct (lines x) as [[|l ls']|e] eqn:E; [|done|].
      * by destruct (IH1 [] eq_refl).
      * intros [= ->]. by apply IH2.
  - apply list_all_proj1 in H. simpl. split.
    + destruct (field_lines_with lines fields); [|done]. by intros ls [= <-].
    + destruct (field_lines_with lines fields) eqn:E; [done|].
      intros [= ->]. by eapply field_lines_with_raises.
  - split; [|done]. by intros ls [= <-].
Qed.

Lemma argstr_with_lines (args : list pyobj) (ls : list string) :
  Forall2 (λ a l, lines a = Ok [l]) args ls →
  argstr_with lines args = Ok ls.
Proof.
  induction 1 as [|a l args ls Ha _ IH]; simpl; [done|].
  by rewrite Ha, IH.
Qed.

(** X14. A function whose arguments render to one line each renders to
    one line: the return type, the name, and the lines of the arguments
    between parentheses, separated by a comma and a space; below a [Ptr]
    the name stands between parentheses after a star. *)
Theorem Function_lines (return_type name : string) (args : list pyobj)
    (ls : list string) :
  Forall2 (λ a l, lines a = Ok [l]) args ls →
  lines (Function return_type (Some name) args)
  = Ok [return_type +:+ " " +:+ name +:+ "(" +:+ join ", " ls +:+ ")"]
  ∧ lines (Ptr (Function return_type (Some name) args))
    = Ok [return_type +:+ " (*" +:+ name +:+ ")(" +:+ join ", " ls +:+ ")"].
Proof.
  intros H. apply argstr_with_lines in H. simpl. rewrite H.
  unfold Function_line. simpl. split; [reflexivity|].
  by rewrite !string_app_assoc.
Qed.

Lemma Function_lines_witness :
  lines (Function "int" (Some "f")
           [IdentifierType "a" "char"; Ptr (IdentifierType "" "void")])
  = Ok ["int f(char a, void*)"]
  ∧ lines (Ptr (Function "int" (Some "f")
                  [IdentifierType "a" "char"; Ptr (IdentifierType "" "void")]))
    = Ok ["int (*f)(char a, void*)"].
Proof.
  exact (Function_lines "int" "f"
           [IdentifierType "a" "char"; Ptr (IdentifierType "" "void")]
           ["char a"; "void*"]
           ltac:(repeat constructor)).
Defined.

(** ** Pointers *)

(** A [PtrDecl] around a declarator that resolves to an output node
    resolves to the [Ptr] of that node. *)
Lemma resolves_to_PtrDecl (base : c_ast.node) (x : pyobj) :
  resolves_to base x → is_str x = false →
  resolves_to (c_ast.PtrDecl base) (Ptr x).
Proof.
  intros Hb Hx s fr cur E.
  erewrite visit_eval; cycle 1.
  { simpl dispatch. unfold visit_PtrDecl.
    erewrite bind_eval; cycle 1.
    { eapply collect_eval.
      - apply (Hb _ (fr ++ [cur]) []). simpl. by rewrite E.
      - reflexivity. }
    simpl. destruct x; try discriminate Hx; by apply append_eval. }
  reflexivity.
Qed.

Lemma resolves_to_ptr_chain (k : nat) (base : c_ast.node) (x : pyobj) :
  resolves_to base x → is_str x = false →
  resolves_to (ptr_chain k base) (wrap_Ptr k x).
Proof.
  intros Hb Hx. induction k as [|k IH]; simpl; [exact Hb|].
  apply resolves_to_PtrDecl; [exact IH|]. by destruct k.
Qed.

Lemma get_type_name_wrap_Ptr k name type_name :
  get_type_name (wrap_Ptr k (IdentifierType name type_name))
  = Ok (type_name +:+ stars k).
Proof.
  induction k as [|k IH]; simpl.
  - by rewrite string_app_nil_r.
  - rewrite IH. by rewrite string_app_assoc.
Qed.

Lemma get_name_wrap_Ptr k x : get_name (wrap_Ptr k x) = get_name x.
Proof. induction k; simpl; done. Qed.

(** X15. [k] pointer levels around a named type resolve, wherever the
    declarator stands, to [k] nested [Ptr] nodes around the
    [IdentifierType], and these render on one line as the type followed by
    [k] stars and, after a space, the name when there is one. *)
Theorem pointer_chain_resolution (k : nat) (declname : option string)
    (names : list string) :
  let name := declname_or_empty declname in
  let resolved := wrap_Ptr k (IdentifierType name (join " " names)) in
  resolves_to
    (ptr_chain k (c_ast.TypeDecl declname (c_ast.IdentifierType names)))
    resolved
  ∧ lines resolved
    = Ok [if String.eqb name "" then join " " names +:+ stars k
          else join " " names +:+ stars k +:+ " " +:+ name].
Proof.
  intros name resolved. split.
  - apply resolves_to_ptr_chain; [apply resolves_to_TypeDecl|reflexivity].
  - assert (Hl : IdentifierType_lines resolved
                 = Ok [if String.eqb name "" then join " " names +:+ stars k
                       else join " " names +:+ stars k +:+ " " +:+ name]).
    { unfold IdentifierType_lines, resolved.
      rewrite get_name_wrap_Ptr, get_type_name_wrap_Ptr. simpl.
      destruct (String.eqb name ""); simpl; [reflexivity|].
      by rewrite string_app_assoc. }
    destruct k as [|[|k]]; [| |exact Hl].
    + simpl in *. exact Hl.
    + exact Hl.
Qed.

Lemma pointer_chain_resolution_witness :
  visit (c_ast.PtrDecl (c_ast.PtrDecl
           (c_ast.TypeDecl (Some "p") (c_ast.IdentifierType ["unsigned"; "char"]))))
    (AutoPxd_init "foo.h")
  = Ok (tt, mkAutoPxd "foo.h"
              [[Ptr (Ptr (IdentifierType "p" "unsigned char"))]] [] [] [] ∅)
  ∧ lines (Ptr (Ptr (IdentifierType "p" "unsigned char")))
    = Ok ["unsigned char** p"].
Proof.
  split.
  - exact (proj1 (pointer_chain_resolution 2 (Some "p") ["unsigned"; "char"])
             (AutoPxd_init "foo.h") [] [] eq_refl).
  - exact (proj2 (pointer_chain_resolution 2 (Some "p") ["unsigned"; "char"])).
Defined.

(** An array of pointers: the chains compose. *)
Example array_of_pointers :
  ∃ p, run (c_ast.FileAST
              [c_ast.Decl (Some "a")
                 (array_chain [Some (c_ast.Constant "int" "4")]
                    (ptr_chain 1 (c_ast.TypeDecl (Some "a")
                                    (c_ast.IdentifierType ["char"]))))
                 None None]) "foo.h" = Ok p
       ∧ decl_stack p = [[Array (Ptr (IdentifierType "a" "char")) ["4"]]]
       ∧ lines (Array (Ptr (IdentifierType "a" "char")) ["4"])
         = Ok ["char* a[4]"].
Proof.
  eexists. split; [vm_compute; reflexivity|]. split; reflexivity.
Qed.

(** ** The fixed-width names, from any state *)

(** X16. Whatever [stdint_declarations] holds before a visit, it holds
    the same names in the same places after it, followed by the fixed-width
    names of the subtree that were not there yet; a list without
    repetition stays without repetition. *)
Theorem visit_stdint_declarations_grow (n : c_ast.node) (s s' : AutoPxd) :
  visit n s = Ok (tt, s') →
  stdint_declarations s `prefix_of` stdint_declarations s'
  ∧ (NoDup (stdint_declarations s) → NoDup (stdint_declarations s'))
  ∧ ∀ x, x ∈ stdint_declarations s'
         ↔ x ∈ stdint_declarations s
           ∨ (x ∈ idnames n ∧ x ∈ STDINT_DECLARATIONS).
Proof.
  intros H. apply visit_stdint_declarations in H.
  rewrite noted_first_seen in H. rewrite H.
  generalize (stdint_declarations s). intros seen.
  split; [by apply prefix_app_r|]. split.
  - intros Hnd. apply NoDup_app. split; [exact Hnd|]. split.
    + intros x Hx [Hx' _]%list_elem_of_filter. contradiction.
    + apply NoDup_filter, NoDup_first_seen.
  - intros x.
    rewrite elem_of_app, list_elem_of_filter, elem_of_first_seen,
      list_elem_of_filter.
    destruct (decide (x ∈ seen)); tauto.
Qed.

Lemma visit_stdint_declarations_grow_witness :
  let s := mkAutoPxd "foo.h" [[]] [c_ast.FileAST []] ["int64_t"] [] ∅ in
  let s' := mkAutoPxd "foo.h"
              [[Function "int64_t" (Some "f")
                  [IdentifierType "a" "uint32_t"; IdentifierType "b" "int64_t";
                   IdentifierType "c" "uint32_t"]]]
              [c_ast.FileAST []] ["int64_t"; "uint32_t"] [] ∅ in
  visit Samples.stdint_user s = Ok (tt, s')
  ∧ stdint_declarations s `prefix_of` stdint_declarations s'.
Proof.
  intros s s'.
  assert (H : visit Samples.stdint_user s = Ok (tt, s')) by (vm_compute; reflexivity).
  split; [exact H|].
  exact (proj1 (visit_stdint_declarations_grow _ _ _ H)).
Defined.

(** ** The filter of [parse] *)

Lemma STDINT_subseteq_IGNORE : STDINT_DECLARATIONS ⊆ IGNORE_DECLARATIONS.
Proof.
  apply (bool_decide_unpack (STDINT_DECLARATIONS ⊆ IGNORE_DECLARATIONS)).
  vm_compute. reflexivity.
Qed.

Lemma parse_keeps_no_whitelist (decl : c_ast.node * string) :
  parse_keeps (Some []) decl = parse_keeps None decl.
Proof. reflexivity. Qed.

(** X17. The whitelist of [parse]: an empty whitelist filters like no
    whitelist at all; with a whitelist that is not empty, every declaration
    that is kept comes from a file of the whitelist.  Either way the
    declarations kept are declarations of the input, in their order, and
    filtering twice changes nothing more. *)
Theorem parse_ext_whitelist (whitelist : option (list string))
    (ext : list (c_ast.node * string)) :
  parse_ext (Some []) ext = parse_ext None ext
  ∧ (∀ f w decl, whitelist = Some (f :: w) → decl ∈ parse_ext whitelist ext →
       decl.2 ∈ f :: w)
  ∧ parse_ext whitelist ext `sublist_of` ext
  ∧ parse_ext whitelist (parse_ext whitelist ext) = parse_ext whitelist ext.
Proof.
  unfold parse_ext. split; [reflexivity|]. split; [|split].
  - intros f w decl -> Hd.
    apply list_elem_of_In, filter_In in Hd as [_ Hk].
    unfold parse_keeps in Hk.
    destruct (c_ast.name_attr decl.1); [|discriminate Hk].
    apply andb_prop in Hk as [_ Hw]. by apply mem_elem_of.
  - induction ext as [|d ext IH]; simpl; [constructor|].
    destruct (parse_keeps whitelist d); by constructor.
  - induction ext as [|d ext IH]; simpl; [reflexivity|].
    destruct (parse_keeps whitelist d) eqn:Hk; simpl; [|exact IH].
    by rewrite Hk, IH.
Qed.

(** X18. What [parse] keeps has a [name] attribute, and the name is not in
    [IGNORE_DECLARATIONS]; the fixed-width names that [translate] imports
    are all in that set, so that no declaration of one of them reaches the
    visitor. *)
Theorem parse_ext_names (whitelist : option (list string))
    (ext : list (c_ast.node * string)) (decl : c_ast.node * string) :
  decl ∈ parse_ext whitelist ext →
  ∃ name, c_ast.name_attr decl.1 = Some name
          ∧ ∀ n, name = Some n →
              (n ∉ IGNORE_DECLARATIONS) ∧ (n ∉ STDINT_DECLARATIONS).
Proof.
  unfold parse_ext. intros Hd.
  apply list_elem_of_In, filter_In in Hd as [_ Hk].
  unfold parse_keeps in Hk.
  destruct (c_ast.name_attr decl.1) as [name|]; [|discriminate Hk].
  exists name. split; [reflexivity|]. intros n ->.
  apply andb_prop in Hk as [Hn _].
  apply negb_true_iff, bool_decide_eq_false in Hn.
  split; [exact Hn|]. intros Hs. apply Hn.
  exact (STDINT_subseteq_IGNORE n Hs).
Qed.

Lemma parse_ext_names_witness :
  let td := c_ast.Typedef (Some "uint32_t")
              (c_ast.TypeDecl (Some "uint32_t") (c_ast.IdentifierType ["unsigned"; "int"])) in
  parse_ext None [(td, "stdint.h"); (Samples.int_x, "foo.h")]
  = [(Samples.int_x, "foo.h")]
  ∧ ∃ name, c_ast.name_attr Samples.int_x = Some name
            ∧ ∀ n, name = Some n →
                (n ∉ IGNORE_DECLARATIONS) ∧ (n ∉ STDINT_DECLARATIONS).
Proof.
  intros td.
  assert (H : parse_ext None [(td, "stdint.h"); (Samples.int_x, "foo.h")]
              = [(Samples.int_x, "foo.h")]) by (vm_compute; reflexivity).
  split; [exact H|].
  refine (parse_ext_names None [(td, "stdint.h"); (Samples.int_x, "foo.h")]
            (Samples.int_x, "foo.h") _).
  rewrite H. apply list_elem_of_here.
Defined.

(** ** The default output path *)

Lemma list_ascii_of_string_app (a b : string) :
  String.list_ascii_of_string (a +:+ b) = String.list_ascii_of_string a ++ String.list_ascii_of_string b.
Proof. induction a as [|c a IH]; simpl; [reflexivity|]. by rewrite IH. Qed.

Lemma drop_char_rev_trail (trail : list Ascii.ascii) (lead : Ascii.ascii)
    (rest : list Ascii.ascii) :
  forallb is_continuation trail = true →
  is_continuation lead = false →
  drop_char_rev (rev trail ++ lead :: rest) = rest.
Proof.
  intros Ht Hl.
  assert (Hr : forallb is_continuation (rev trail) = true).
  { apply forallb_forall. intros c Hc%in_rev.
    revert c Hc. by apply forallb_forall. }
  induction (rev trail) as [|c l IH]; simpl in *.
  - by rewrite Hl.
  - apply andb_prop in Hr as [-> Hr]. by apply IH.
Qed.

Lemma utf8_trail_lead (c : Ascii.ascii) (k : nat) :
  utf8_trail c = Some k → is_continuation c = false.
Proof.
  unfold utf8_trail, is_continuation. intros H.
  destruct (Nat.leb_spec 128 (Ascii.nat_of_ascii c)) as [Hlo|Hlo]; [|reflexivity].
  destruct (Nat.ltb_spec (Ascii.nat_of_ascii c) 192) as [Hhi|Hhi]; [|reflexivity].
  destruct (Nat.ltb_spec (Ascii.nat_of_ascii c) 128); [lia|discriminate H].
Qed.

(** X19. The default output path is the input path with its last character
    replaced by [pxd], whatever that character is, of one byte or of
    several: [dir/foo.h] gives [dir/foo.pxd]; the empty path gives [pxd]. *)
Theorem default_output_path_last (stem ch : string) :
  utf8_char ch = true →
  default_output_path (stem +:+ ch) = stem +:+ "pxd"
  ∧ default_output_path "" = "pxd".
Proof.
  intros Hch. split; [|reflexivity].
  unfold default_output_path, drop_last_char. f_equal.
  unfold utf8_char in Hch.
  rewrite list_ascii_of_string_app.
  destruct (String.list_ascii_of_string ch) as [|lead trail]; [discriminate|].
  destruct (utf8_trail lead) as [k|] eqn:Hk; [|discriminate].
  apply andb_prop in Hch as [_ Ht].
  rewrite rev_app_distr. simpl. rewrite <- app_assoc. simpl.
  rewrite drop_char_rev_trail by eauto using utf8_trail_lead.
  by rewrite rev_involutive, String.string_of_list_ascii_of_string.
Qed.

Lemma default_output_path_last_witness :
  let e_acute := String (Ascii.ascii_of_nat 195) (String (Ascii.ascii_of_nat 169) "") in
  (default_output_path ("dir/foo" +:+ e_acute) = "dir/foo" +:+ "pxd"
   ∧ default_output_path "" = "pxd")
  ∧ default_output_path ("dir/foo." +:+ "h") = "dir/foo." +:+ "pxd".
Proof.
  intros e_acute. split.
  - exact (default_output_path_last "dir/foo" e_acute eq_refl).
  - exact (proj1 (default_output_path_last "dir/foo." "h" eq_refl)).
Defined.

(** ** Function prototypes *)






(** ** Blocks as text *)

Lemma field_lines_with_lines (fields : list pyobj) (lss : list (list string)) :
  Forall2 (λ f ls, lines f = Ok ls) fields lss →
  field_lines_with lines fields = Ok (String.append indent <$> concat lss).
Proof.
  induction 1 as [|f ls fields lss Hf _ IH]; simpl; [reflexivity|].
  by rewrite Hf, IH, fmap_app.
Qed.

(** X21. A block whose fields render: its lines are the header, made of
    the statement, the kind and the name, then the lines of the fields in
    their order, each behind one more level of indentation.  A block
    without fields is its header alone, and a block inside a block has its
    own fields two levels deep. *)
Theorem Block_lines (name kind statement : string) (fields : list pyobj)
    (lss : list (list string)) :
  Forall2 (λ f ls, lines f = Ok ls) fields lss →
  lines (Block name fields kind statement)
  = Ok ((statement +:+ " " +:+ kind +:+ " " +:+ name +:+ ":")
          :: (String.append indent <$> concat lss))
  ∧ ∀ outer okind ostatement,
      lines (Block outer [Block name fields kind statement] okind ostatement)
      = Ok ((ostatement +:+ " " +:+ okind +:+ " " +:+ outer +:+ ":")
              :: (indent +:+ statement +:+ " " +:+ kind +:+ " " +:+ name +:+ ":")
              :: (String.append (indent +:+ indent) <$> concat lss)).
Proof.
  intros H. apply field_lines_with_lines in H.
  assert (E : lines (Block name fields kind statement)
              = Ok ((statement +:+ " " +:+ kind +:+ " " +:+ name +:+ ":")
                      :: (String.append indent <$> concat lss))).
  { simpl. by rewrite H. }
  split; [exact E|]. intros outer okind ostatement.
  change (lines (Block outer [Block name fields kind statement] okind ostatement))
    with (match field_lines_with lines [Block name fields kind statement] with
          | Ok ls => Ok ((ostatement +:+ " " +:+ okind +:+ " " +:+ outer +:+ ":") :: ls)
          | Raise e => Raise e
          end).
  cbn [field_lines_with]. rewrite E. cbn [fmap list_fmap].
  rewrite app_nil_r, <- list_fmap_compose. reflexivity.
Qed.

Lemma Block_lines_witness :
  lines (Block "foo" [IdentifierType "x" "int"; Enum None ["A"] "cdef"]
           "struct" "cdef")
  = Ok ["cdef struct foo:"; "    int x"; "    cdef enum:"; "        A"]
  ∧ ∀ outer okind ostatement,
      lines (Block outer
               [Block "foo" [IdentifierType "x" "int"; Enum None ["A"] "cdef"]
                  "struct" "cdef"] okind ostatement)
      = Ok ((ostatement +:+ " " +:+ okind +:+ " " +:+ outer +:+ ":")
              :: ["    cdef struct foo:"; "        int x"; "        cdef enum:";
                  "            A"]).
Proof.
  exact (Block_lines "foo" "struct" "cdef"
           [IdentifierType "x" "int"; Enum None ["A"] "cdef"]
           [["int x"]; ["cdef enum:"; "    A"]]
           ltac:(repeat constructor)).
Defined.

(** ** Typedefs *)


